(** * Kinesis trigger of the serverless forwarder

    A shallow embedding of [handlers/aws/kinesis_trigger.py]: the
    continuation publisher [_handle_kinesis_continuation] and the record
    consumer [_handle_kinesis_record], over an explicit world holding the
    Python object store, the clock, the logger and the traces of the calls
    made to the SQS client and to the payload storage. *)

From Stdlib Require Import ZArith Lia List Strings.Byte DecimalString DecimalZ DecimalPos.
From stdpp Require Import gmap strings list fin_maps sorting.

Open Scope Z_scope.

(** ** Python strings and bytes *)

(** A Python [str] is a sequence of Unicode code points; [bytes] is a
    sequence of octets. *)
Definition pystr := list Z.
Definition pybytes := list byte.

(** An ASCII literal of the source, as a Python [str]. *)
Definition str_lit (s : string) : pystr :=
  map (fun a => Z.of_N (Ascii.N_of_ascii a)) (String.list_ascii_of_string s).

(** [str(n)] for an [int]: the decimal numeral, with a minus sign for
    negative numbers and no leading zero. *)
Definition str (n : Z) : pystr :=
  str_lit (NilZero.string_of_int (Z.to_int n)).

(** Back from text to ASCII, to read a numeral again. *)
Definition ascii_of_codepoint (c : Z) : option Ascii.ascii :=
  if (0 <=? c) && (c <? 256) then Some (Ascii.ascii_of_N (Z.to_N c)) else None.

Fixpoint ascii_string (s : pystr) : option string :=
  match s with
  | [] => Some EmptyString
  | c :: s' =>
      match ascii_of_codepoint c, ascii_string s' with
      | Some a, Some r => Some (String a r)
      | _, _ => None
      end
  end.

(** Reading a decimal numeral, the inverse of [str]. *)
Definition int_of_decimal (s : pystr) : option Z :=
  match ascii_string s with
  | Some t => option_map Z.of_int (NilZero.int_of_string t)
  | None => None
  end.

(** ** UTF-8 *)

Definition byte_val (b : byte) : Z := Z.of_N (Byte.to_N b).


(** A continuation byte, [10xxxxxx]. *)
Definition is_cont (b : byte) : bool :=
  (0x80 <=? byte_val b) && (byte_val b <=? 0xBF).

Definition is_surrogate (c : Z) : bool := (0xD800 <=? c) && (c <=? 0xDFFF).

(** [bytes.decode("utf-8")] with the default strict error handler: [None]
    stands for [UnicodeDecodeError].  Overlong forms, surrogates and code
    points above U+10FFFF are rejected. *)
Fixpoint utf8_decode (bs : pybytes) : option pystr :=
  match bs with
  | [] => Some []
  | b0 :: r0 =>
      let x0 := byte_val b0 in
      if x0 <? 0x80 then cons x0 <$> utf8_decode r0
      else if x0 <? 0xC2 then None
      else if x0 <? 0xE0 then
        match r0 with
        | b1 :: r1 =>
            if is_cont b1
            then cons ((x0 - 0xC0) * 64 + (byte_val b1 - 0x80)) <$> utf8_decode r1
            else None
        | _ => None
        end
      else if x0 <? 0xF0 then
        match r0 with
        | b1 :: b2 :: r2 =>
            let c := (x0 - 0xE0) * 4096 + (byte_val b1 - 0x80) * 64
                     + (byte_val b2 - 0x80) in
            if is_cont b1 && is_cont b2 && (0x800 <=? c) && negb (is_surrogate c)
            then cons c <$> utf8_decode r2
            else None
        | _ => None
        end
      else if x0 <? 0xF5 then
        match r0 with
        | b1 :: b2 :: b3 :: r3 =>
            let c := (x0 - 0xF0) * 262144 + (byte_val b1 - 0x80) * 4096
                     + (byte_val b2 - 0x80) * 64 + (byte_val b3 - 0x80) in
            if is_cont b1 && is_cont b2 && is_cont b3
               && (0x10000 <=? c) && (c <=? 0x10FFFF)
            then cons c <$> utf8_decode r3
            else None
        | _ => None
        end
      else None
  end.



(** ** Exceptions and results *)

Inductive Exn :=
| UnicodeDecodeError
| AssertionError
| KeyError (key : string)
| TypeError
| RecursionError
| External (name : string).

Inductive Result (A : Type) :=
| Ok (a : A)
| Raise (e : Exn).
Arguments Ok {A} a.
Arguments Raise {A} e.

(** ** The object store

    Dictionaries are objects: a value of dictionary type is a reference
    into the store, so two names may denote the same dictionary. *)

Definition loc := nat.

Inductive val :=
| VNone
| VStr (s : pystr)
| VInt (n : Z)
| VDict (l : loc).
Arguments VDict l%_nat.

(** ** Messages, log records, yielded items *)

Record MessageAttribute := {
  StringValue : pystr;
  DataType : pystr;
}.

(** The keyword arguments of [sqs_client.send_message]. *)
Record SendMessageRequest := {
  QueueUrl : pystr;
  MessageBody : pystr;
  MessageAttributes : gmap string MessageAttribute;
}.

Record LogRecord := {
  level : string;
  msg : string;
  extra : list (string * val);
}.

(** One item of the generator [_handle_kinesis_record]:
    [es_event, ending_offset, event_expanded_offset, kinesis_record_n]. *)
Record Yielded := {
  es_event : val;
  ending_offset : Z;
  event_expanded_offset : option Z;
  kinesis_record_n : nat;
}.

(** ** The world

    [heap] and [next_loc] are the object store and its allocation pointer;
    [clock] counts the readings of [datetime.utcnow]; [sqs_sent] is the
    trace of the requests handed to [send_message]; [storage_calls] the
    trace of [(payload, range_start)] of the [get_by_lines] calls;
    [yielded] the items a generator has produced so far. *)
Record World := mkWorld {
  heap : gmap loc (gmap string val);
  next_loc : loc;
  clock : nat;
  sqs_sent : list SendMessageRequest;
  storage_calls : list (pybytes * Z);
  log_records : list LogRecord;
  yielded : list Yielded;
}.
Arguments mkWorld heap next_loc%_nat clock%_nat sqs_sent storage_calls log_records yielded.

Definition with_heap (h : gmap loc (gmap string val)) (n : loc) (w : World) : World :=
  mkWorld h n (clock w) (sqs_sent w) (storage_calls w) (log_records w) (yielded w).

(** ** A state and exception monad over the world *)

Definition M (A : Type) := World -> Result A * World.

Definition ret {A} (a : A) : M A := fun w => (Ok a, w).

Definition raise {A} (e : Exn) : M A := fun w => (Raise e, w).

Definition bind {A B} (m : M A) (k : A -> M B) : M B :=
  fun w =>
    match m w with
    | (Ok a, w') => k a w'
    | (Raise e, w') => (Raise e, w')
    end.

Declare Scope py_scope.
Delimit Scope py_scope with py.
Notation "x <- m ;; k" := (bind m (fun x => k))
  (at level 100, m at next level, right associativity) : py_scope.
Notation "m ;;; k" := (bind m (fun _ => k))
  (at level 100, right associativity) : py_scope.
Open Scope py_scope.

(** [for x in xs: body x]. *)
Fixpoint for_each {A} (xs : list A) (body : A -> M unit) : M unit :=
  match xs with
  | [] => ret tt
  | x :: xs' => body x ;;; for_each xs' body
  end.

(** [for i, x in enumerate(xs): body i x], counting from [i]. *)
Fixpoint for_enumerate {A} (i : nat) (xs : list A) (body : nat -> A -> M unit) : M unit :=
  match xs with
  | [] => ret tt
  | x :: xs' => body i x ;;; for_enumerate (S i) xs' body
  end.

(** *** Effects *)

Definition logger_log (lvl message : string) (ex : list (string * val)) : M unit :=
  fun w => (Ok tt,
            mkWorld (heap w) (next_loc w) (clock w) (sqs_sent w) (storage_calls w)
                    (log_records w ++ [{| level := lvl; msg := message; extra := ex |}])
                    (yielded w)).

Definition yield (y : Yielded) : M unit :=
  fun w => (Ok tt,
            mkWorld (heap w) (next_loc w) (clock w) (sqs_sent w) (storage_calls w)
                    (log_records w) (yielded w ++ [y])).

(** A boto client is known by how it answers a request: [None] when the
    call returns, [Some e] when it raises [e].  Every call is recorded. *)
Definition BotoBaseClient := SendMessageRequest -> option Exn.

Definition send_message (client : BotoBaseClient) (req : SendMessageRequest) : M unit :=
  fun w =>
    let w' := mkWorld (heap w) (next_loc w) (clock w) (sqs_sent w ++ [req])
                      (storage_calls w) (log_records w) (yielded w) in
    match client req with
    | None => (Ok tt, w')
    | Some e => (Raise e, w')
    end.

(** [b.decode("utf-8")] as a computation. *)
Definition decode_utf8 (b : pybytes) : M pystr :=
  match utf8_decode b with
  | Some s => ret s
  | None => raise UnicodeDecodeError
  end.

Definition opt_int (o : option Z) : val :=
  match o with
  | Some n => VInt n
  | None => VNone
  end.

(** ** The records of a Kinesis event *)

Record KinesisData := {
  sequenceNumber : pystr;
  data : pybytes;
}.

Record KinesisRecord := {
  kinesis : KinesisData;
  eventSourceARN : pystr;
}.

Record Event := {
  Records : list KinesisRecord;
}.

(** ** Operations on the object store *)

(** A new dictionary object with the given content. *)
Definition alloc (d : gmap string val) : M val :=
  fun w => (Ok (VDict (next_loc w)),
            with_heap (<[next_loc w := d]> (heap w)) (S (next_loc w)) w).

(** [o[k]]. *)
Definition getitem (o : val) (k : string) : M val :=
  fun w =>
    match o with
    | VDict l =>
        match heap w !! l with
        | Some d =>
            match d !! k with
            | Some v => (Ok v, w)
            | None => (Raise (KeyError k), w)
            end
        | None => (Raise TypeError, w)
        end
    | _ => (Raise TypeError, w)
    end.

(** [o[k] = v]: the dictionary object is updated in place. *)
Definition setitem (o : val) (k : string) (v : val) : M unit :=
  fun w =>
    match o with
    | VDict l =>
        match heap w !! l with
        | Some d => (Ok tt, with_heap (<[l := <[k := v]> d]> (heap w)) (next_loc w) w)
        | None => (Raise TypeError, w)
        end
    | _ => (Raise TypeError, w)
    end.

(** [f] on every element, left to right. *)
Fixpoint map_m {A B} (f : A -> M B) (xs : list A) : M (list B) :=
  match xs with
  | [] => ret []
  | x :: xs' => y <- f x ;; ys <- map_m f xs' ;; ret (y :: ys)
  end.

(** [copy.deepcopy(x)] on the values at hand: [None], strings and
    integers are returned as they are; the copy of a dictionary is a new
    dictionary that maps each key to the copy of its value.  [depth]
    bounds the nesting as the interpreter's recursion limit does.  The
    memo table of the library, which keeps sharing and cycles, is left
    out: a structure nested deeper than [depth] ends in [RecursionError]. *)
Fixpoint deepcopy (depth : nat) (x : val) : M val :=
  match x with
  | VDict l =>
      match depth with
      | O => raise RecursionError
      | S depth' =>
          fun w =>
            match heap w !! l with
            | Some d =>
                (items <- map_m (fun kv => v' <- deepcopy depth' (snd kv) ;; ret (fst kv, v'))
                                (map_to_list d) ;;
                 alloc (list_to_map items)) w
            | None => (Raise TypeError, w)
            end
      end
  | _ => ret x
  end.

(** Following keys from a value: [v[k1][k2]...]. *)
Fixpoint get_path (h : gmap loc (gmap string val)) (v : val) (p : list string) : option val :=
  match p with
  | [] => Some v
  | k :: p' =>
      match v with
      | VDict l =>
          match h !! l with
          | Some d =>
              match d !! k with
              | Some u => get_path h u p'
              | None => None
              end
          | None => None
          end
      | _ => None
      end
  end.

(** The nesting of dictionaries under [v] is at most [n]. *)
Fixpoint depth_leb (h : gmap loc (gmap string val)) (n : nat) (v : val) : bool :=
  match v with
  | VDict l =>
      match n with
      | O => false
      | S n' =>
          match h !! l with
          | Some d => forallb (fun kv => depth_leb h n' (snd kv)) (map_to_list d)
          | None => false
          end
      end
  | _ => true
  end.

(** Objects reachable from a value through dictionary entries. *)
Inductive reachable (h : gmap loc (gmap string val)) : val -> loc -> Prop :=
| reach_here l : reachable h (VDict l) l
| reach_step l d k v l' :
    h !! l = Some d -> d !! k = Some v -> reachable h v l' ->
    reachable h (VDict l) l'.

(** ** The decoder and the other imports

    The storage and its decoder, the ARN helpers and the default event are
    imported by the module and are taken as given.  A storage reads a
    payload into decoded units
    [(log_event, starting_offset, ending_offset, event_expanded_offset)]. *)

Inductive LogEvent :=
| EventBytes (b : pybytes)
| EventReader.

Definition DecodedUnit : Type := LogEvent * Z * Z * option Z.

Section Handlers.

(** The types of [share.ExpandEventListFromField] and
    [share.ProtocolMultiline]. *)
Context {ExpandEventListFromField ProtocolMultiline : Type}.

(** The object built by [StorageFactory.create(storage_type="payload", ...)]. *)
Record PayloadStorage := {
  payload : pybytes;
  json_content_type : option pystr;
  expand_event_list_from_field : ExpandEventListFromField;
  multiline_processor : option ProtocolMultiline;
}.

(** What the module imports.  [get_by_lines storage range_start] is the
    generator of the storage: the units it yields, and the exception that
    ends it if it does not end by exhaustion.  [utcnow_strftime n] is the
    text of the [n]-th reading of the clock; [recursion_limit] the
    interpreter's limit on nested calls. *)
Class Imports := {
  get_account_id_from_arn : pystr -> pystr;
  get_kinesis_stream_name_type_and_region_from_arn : pystr -> pystr * pystr * pystr;
  get_by_lines : PayloadStorage -> Z -> list DecodedUnit * option Exn;
  utcnow_strftime : nat -> pystr;
  _default_event : val;
  recursion_limit : nat;
}.

Context `{Imports}.

Definition StorageFactory_create (payload : pybytes) (json_content_type : option pystr)
    (expand_event_list_from_field : ExpandEventListFromField)
    (multiline_processor : option ProtocolMultiline) : PayloadStorage :=
  {| payload := payload; json_content_type := json_content_type;
     expand_event_list_from_field := expand_event_list_from_field;
     multiline_processor := multiline_processor |}.

(** [storage.get_by_lines(range_start=...)]: the call is recorded. *)
Definition storage_get_by_lines (storage : PayloadStorage) (range_start : Z)
  : M (list DecodedUnit * option Exn) :=
  fun w => (Ok (get_by_lines storage range_start),
            mkWorld (heap w) (next_loc w) (clock w) (sqs_sent w)
                    (storage_calls w ++ [(payload storage, range_start)])
                    (log_records w) (yielded w)).

(** [for x in events: body x] over a generator that may raise. *)
Definition for_events {A} (events : list A * option Exn) (body : A -> M unit) : M unit :=
  for_each (fst events) body ;;;
  match snd events with
  | Some e => raise e
  | None => ret tt
  end.

(** [datetime.datetime.utcnow().strftime("%Y-%m-%dT%H:%M:%S.%fZ")]. *)
Definition utcnow : M pystr :=
  fun w => (Ok (utcnow_strftime (clock w)),
            mkWorld (heap w) (next_loc w) (S (clock w)) (sqs_sent w) (storage_calls w)
                    (log_records w) (yielded w)).

(** ** [_handle_kinesis_continuation] *)

Definition attribute (value type : pystr) : MessageAttribute :=
  {| StringValue := value; DataType := type |}.

(** The dictionary [message_attributes] as it stands when the message is
    sent (lines 38 to 53). *)
Definition message_attributes (config_yaml stream_type stream_name sequence_number
    event_input_id : pystr) (last_ending_offset last_event_expanded_offset : option Z)
  : gmap string MessageAttribute :=
  let message_attributes : gmap string MessageAttribute :=
    <["originalEventSourceARN" := attribute event_input_id (str_lit "String")]>
    (<["originalSequenceNumber" := attribute sequence_number (str_lit "String")]>
    (<["originalStreamName" := attribute stream_name (str_lit "String")]>
    (<["originalStreamType" := attribute stream_type (str_lit "String")]>
    (<["config" := attribute config_yaml (str_lit "String")]> ∅)))) in
  let message_attributes :=
    match last_ending_offset with
    | Some n => <["originalLastEndingOffset" := attribute (str n) (str_lit "Number")]>
                  message_attributes
    | None => message_attributes
    end in
  match last_event_expanded_offset with
  | Some n => <["originalLastEventExpandedOffset" := attribute (str n) (str_lit "Number")]>
                message_attributes
  | None => message_attributes
  end.

Definition _handle_kinesis_continuation (sqs_client : BotoBaseClient)
    (sqs_continuing_queue : pystr)
    (last_ending_offset last_event_expanded_offset : option Z)
    (kinesis_record : KinesisRecord) (event_input_id config_yaml : pystr) : M unit :=
  let sequence_number := sequenceNumber (kinesis kinesis_record) in
  let '(stream_type, stream_name, _) :=
    get_kinesis_stream_name_type_and_region_from_arn event_input_id in
  let message_attributes :=
    message_attributes config_yaml stream_type stream_name sequence_number
                       event_input_id last_ending_offset last_event_expanded_offset in
  let kinesis_data := data (kinesis kinesis_record) in
  message_body <- decode_utf8 kinesis_data ;;
  send_message sqs_client {| QueueUrl := sqs_continuing_queue;
                             MessageBody := message_body;
                             MessageAttributes := message_attributes |} ;;;
  logger_log "debug" "continuing"
    [("sqs_continuing_queue", VStr sqs_continuing_queue);
     ("last_ending_offset", opt_int last_ending_offset);
     ("last_event_expanded_offset", opt_int last_event_expanded_offset);
     ("sequence_number", VStr sequence_number)].

(** ** [_handle_kinesis_record] *)

(** The body of the inner loop (lines 107 to 128). *)
Definition handle_decoded_unit (account_id stream_type stream_name aws_region : pystr)
    (kinesis_record_n : nat) (kinesis_record : KinesisRecord) (decoded : DecodedUnit) : M unit :=
  let '(log_event, starting_offset, ending_offset, event_expanded_offset) := decoded in
  match log_event with
  | EventReader => raise AssertionError
  | EventBytes log_event =>
      es_event <- deepcopy recursion_limit _default_event ;;
      timestamp <- utcnow ;;
      setitem es_event "@timestamp" (VStr timestamp) ;;;
      message <- decode_utf8 log_event ;;
      fields <- getitem es_event "fields" ;;
      setitem fields "message" (VStr message) ;;;
      fields <- getitem es_event "fields" ;;
      log <- getitem fields "log" ;;
      setitem log "offset" (VInt starting_offset) ;;;
      fields <- getitem es_event "fields" ;;
      log <- getitem fields "log" ;;
      file <- getitem log "file" ;;
      setitem file "path" (VStr (eventSourceARN kinesis_record)) ;;;
      kinesis_dict <- alloc (<["sequence_number" := VStr (sequenceNumber (kinesis kinesis_record))]>
                            (<["name" := VStr stream_name]>
                            (<["type" := VStr stream_type]> ∅))) ;;
      aws <- alloc (<["kinesis" := kinesis_dict]> ∅) ;;
      fields <- getitem es_event "fields" ;;
      setitem fields "aws" aws ;;;
      fields <- getitem es_event "fields" ;;
      cloud <- getitem fields "cloud" ;;
      setitem cloud "region" (VStr aws_region) ;;;
      account <- alloc (<["id" := VStr account_id]> ∅) ;;
      fields <- getitem es_event "fields" ;;
      cloud <- getitem fields "cloud" ;;
      setitem cloud "account" account ;;;
      yield {| es_event := es_event; ending_offset := ending_offset;
               event_expanded_offset := event_expanded_offset;
               kinesis_record_n := kinesis_record_n |}
  end.

(** The body of the outer loop (lines 90 to 128). *)
Definition handle_one_record (account_id : pystr) (json_content_type : option pystr)
    (expand_event_list_from_field : ExpandEventListFromField)
    (multiline_processor : option ProtocolMultiline)
    (kinesis_record_n : nat) (kinesis_record : KinesisRecord) : M unit :=
  let storage := StorageFactory_create (data (kinesis kinesis_record)) json_content_type
                   expand_event_list_from_field multiline_processor in
  let '(stream_type, stream_name, aws_region) :=
    get_kinesis_stream_name_type_and_region_from_arn (eventSourceARN kinesis_record) in
  logger_log "info" "kinesis event" [] ;;;
  events <- storage_get_by_lines storage 0 ;;
  for_events events
    (handle_decoded_unit account_id stream_type stream_name aws_region
                         kinesis_record_n kinesis_record).

Definition _handle_kinesis_record (event : Event) (input_id : pystr)
    (expand_event_list_from_field : ExpandEventListFromField)
    (json_content_type : option pystr)
    (multiline_processor : option ProtocolMultiline) : M unit :=
  let account_id := get_account_id_from_arn input_id in
  for_enumerate 0 (Records event)
    (handle_one_record account_id json_content_type expand_event_list_from_field
                       multiline_processor).

End Handlers.
Arguments PayloadStorage : clear implicits.
Arguments Imports : clear implicits.

(** ** Invariants of the store

    The vocabulary in which the frame of the handlers is stated: what a
    call may touch, and what a value may refer to. *)

(** A reference lies in the range from [a] up to, not including, [b]. *)
Definition val_in (a b : loc) (v : val) : Prop :=
  match v with
  | VDict l => (a <= l < b)%nat
  | _ => True
  end.
Arguments val_in a%_nat b%_nat v.

(** Every object lies below the allocation pointer. *)
Definition bounded (w : World) : Prop :=
  forall l d, heap w !! l = Some d -> (l < next_loc w)%nat.

(** [w] agrees with [w0] below [a], and the objects from [a] on refer
    only to objects from [a] on. *)
Record Inv (a : loc) (w0 w : World) : Prop := {
  inv_next : (a <= next_loc w)%nat;
  inv_dom : bounded w;
  inv_old : forall l, (l < a)%nat -> heap w !! l = heap w0 !! l;
  inv_new : forall l d k v, (a <= l)%nat -> heap w !! l = Some d -> d !! k = Some v ->
            val_in a (next_loc w) v;
}.

(** [w'] is [w] with new objects on top that refer to each other only. *)
Definition Ext (w w' : World) : Prop := Inv (next_loc w) w w'.

(** No object refers to an object that is not allocated yet. *)
Definition closed (w : World) : Prop :=
  bounded w
  /\ forall l d k v, heap w !! l = Some d -> d !! k = Some v -> val_in 0%nat (next_loc w) v.

Definition closedb (w : World) : bool :=
  forallb (fun ld : loc * gmap string val =>
             (fst ld <? next_loc w)%nat
             && forallb (fun kv : string * val =>
                           match snd kv with
                           | VDict l => (l <? next_loc w)%nat
                           | _ => true
                           end)
                        (map_to_list (snd ld)))
          (map_to_list (heap w)).

(** Only the store differs; the traces too may keep their clock apart. *)
Definition quiet (w w' : World) : Prop :=
  clock w' = clock w /\ sqs_sent w' = sqs_sent w /\ storage_calls w' = storage_calls w
  /\ log_records w' = log_records w /\ yielded w' = yielded w.

Definition calm (w w' : World) : Prop :=
  sqs_sent w' = sqs_sent w /\ storage_calls w' = storage_calls w
  /\ log_records w' = log_records w /\ yielded w' = yielded w.

(** [o[k]] read in a store. *)
Definition field (h : gmap loc (gmap string val)) (o : val) (k : string) : option val :=
  match o with
  | VDict l => h !! l ≫= (fun d => d !! k)
  | _ => None
  end.

Definition is_obj (h : gmap loc (gmap string val)) (o : val) : Prop :=
  match o with
  | VDict l => is_Some (h !! l)
  | _ => False
  end.

(** [u'] is as [u]: the same value, or a dictionary for a dictionary. *)
Definition shape (h' : gmap loc (gmap string val)) (u u' : val) : Prop :=
  match u with
  | VDict _ => exists l', u' = VDict l' /\ is_Some (h' !! l')
  | _ => u' = u
  end.

(** Every path from [x] in [h] leads from [y] in [h'] to a value of the
    same shape. *)
Definition copy_of (h : gmap loc (gmap string val)) (x : val)
    (h' : gmap loc (gmap string val)) (y : val) : Prop :=
  forall p u, get_path h x p = Some u ->
    exists u', get_path h' y p = Some u' /\ shape h' u u'.

Definition copied (w w' : World) (x y : val) : Prop :=
  val_in (next_loc w) (next_loc w') y /\ copy_of (heap w) x (heap w') y.

Definition deepcopy_post (n : nat) : Prop :=
  forall x w r w', bounded w -> deepcopy n x w = (r, w') ->
    Ext w w' /\ quiet w w' /\ forall y, r = Ok y -> copied w w' x y.

(** Weakest precondition of a computation, for a normal and an
    exceptional postcondition. *)
Definition wpe {A} (m : M A) (Q : A -> World -> Prop) (E : Exn -> World -> Prop)
    (w : World) : Prop :=
  match m w with
  | (Ok a, w') => Q a w'
  | (Raise e, w') => E e w'
  end.

(** The running state of a loop body: the store extends [w0] above [a]
    and nothing was sent, read, logged or yielded since [w0]. *)
Definition St (a : loc) (w0 w : World) : Prop := Inv a w0 w /\ calm w0 w.

Definition E_frame (a : loc) (w0 : World) : Exn -> World -> Prop := fun _ w => St a w0 w.

(** What is known of a store: the fields [P] and the objects [O]. *)
Definition Know (h : gmap loc (gmap string val)) (P : list (val * string * val))
    (O : list val) : Prop :=
  Forall (fun f => field h (fst (fst f)) (snd (fst f)) = Some (snd f)) P
  /\ Forall (is_obj h) O.

Definition Cur (w0 : World) (P : list (val * string * val)) (O : list val) (c : nat)
    (w : World) : Prop :=
  bounded w /\ Know (heap w) P O /\ clock w = (clock w0 + c)%nat /\ calm w0 w.

(** The objects of the yielded documents lie in consecutive, disjoint
    ranges of the store between [a] and [b]. *)
Inductive separated (h : gmap loc (gmap string val)) : loc -> list Yielded -> loc -> Prop :=
| separated_nil a b : (a <= b)%nat -> separated h a [] b
| separated_cons a m y ys b :
    (a <= m)%nat ->
    (forall l, reachable h (es_event y) l -> (a <= l < m)%nat) ->
    separated h m ys b ->
    separated h a (y :: ys) b.

(** ** Documents as the caller reads them *)

(** The tuple yielded for the unit [u] of record [n] around the document
    [doc]. *)
Definition item_of (u : DecodedUnit) (n : nat) (doc : val) : Yielded :=
  {| es_event := doc; ending_offset := snd (fst u); event_expanded_offset := snd u;
     kinesis_record_n := n |}.

(** The fields that [_handle_kinesis_record] sets in a document. *)
Record Document := {
  doc_timestamp : pystr;
  doc_message : pystr;
  doc_offset : Z;
  doc_path : pystr;
  doc_type : pystr;
  doc_name : pystr;
  doc_sequence_number : pystr;
  doc_region : pystr;
  doc_account_id : pystr;
}.

Definition read_str (h : gmap loc (gmap string val)) (v : val) (p : list string)
  : option pystr :=
  match get_path h v p with
  | Some (VStr s) => Some s
  | _ => None
  end.

Definition read_int (h : gmap loc (gmap string val)) (v : val) (p : list string)
  : option Z :=
  match get_path h v p with
  | Some (VInt n) => Some n
  | _ => None
  end.

Definition read_document (h : gmap loc (gmap string val)) (v : val) : option Document :=
  timestamp ← read_str h v ["@timestamp"];
  message ← read_str h v ["fields"; "message"];
  offset ← read_int h v ["fields"; "log"; "offset"];
  path ← read_str h v ["fields"; "log"; "file"; "path"];
  type ← read_str h v ["fields"; "aws"; "kinesis"; "type"];
  name ← read_str h v ["fields"; "aws"; "kinesis"; "name"];
  sequence_number ← read_str h v ["fields"; "aws"; "kinesis"; "sequence_number"];
  region ← read_str h v ["fields"; "cloud"; "region"];
  account_id ← read_str h v ["fields"; "cloud"; "account"; "id"];
  Some {| doc_timestamp := timestamp; doc_message := message; doc_offset := offset;
          doc_path := path; doc_type := type; doc_name := name;
          doc_sequence_number := sequence_number; doc_region := region;
          doc_account_id := account_id |}.

Definition has_dict (h : gmap loc (gmap string val)) (v : val) (p : list string) : bool :=
  match get_path h v p with
  | Some (VDict _) => true
  | _ => false
  end.

(** A document and the rest of the tuple yielded with it. *)
Record Emitted := {
  em_document : Document;
  em_ending_offset : Z;
  em_event_expanded_offset : option Z;
  em_record_n : nat;
}.

(** The yielded item [y] is [it]: the same tuple, around a document that
    reads as [it]'s in the store [h]. *)
Definition emits (h : gmap loc (gmap string val)) (y : Yielded) (it : Emitted) : Prop :=
  read_document h (es_event y) = Some (em_document it)
  /\ ending_offset y = em_ending_offset it
  /\ event_expanded_offset y = em_event_expanded_offset it
  /\ kinesis_record_n y = em_record_n it.

Definition result_of (e : option Exn) : Result unit :=
  match e with
  | Some e => Raise e
  | None => Ok tt
  end.

(** ** The outcome of a batch, without the store

    What [_handle_kinesis_record] yields and how it ends, computed from the
    records and the decoder alone.  The handler is proved to do just this
    when the default event has the dictionaries it indexes. *)

Section Reference.
Context {X Y : Type} `{!Imports X Y}.

(** The default event is nested within the recursion limit and has
    [fields], [fields.log], [fields.log.file] and [fields.cloud] as
    dictionaries. *)
Definition template_ok (h : gmap loc (gmap string val)) : bool :=
  depth_leb h recursion_limit _default_event
  && has_dict h _default_event ["fields"; "log"; "file"]
  && has_dict h _default_event ["fields"; "cloud"].

Variables (account_id : pystr) (json_content_type : option pystr)
          (expand_event_list_from_field : X) (multiline_processor : option Y).

(** What the [c]-th reading of the clock and one decoded unit give. *)
Definition unit_emitted (stream_type stream_name aws_region : pystr) (n : nat)
    (rec : KinesisRecord) (c : nat) (u : DecodedUnit) : Exn + Emitted :=
  let '(log_event, starting_offset, ending_offset, event_expanded_offset) := u in
  match log_event with
  | EventReader => inl AssertionError
  | EventBytes b =>
      match utf8_decode b with
      | None => inl UnicodeDecodeError
      | Some message =>
          inr {| em_document :=
                   {| doc_timestamp := utcnow_strftime c; doc_message := message;
                      doc_offset := starting_offset; doc_path := eventSourceARN rec;
                      doc_type := stream_type; doc_name := stream_name;
                      doc_sequence_number := sequenceNumber (kinesis rec);
                      doc_region := aws_region; doc_account_id := account_id |};
                 em_ending_offset := ending_offset;
                 em_event_expanded_offset := event_expanded_offset;
                 em_record_n := n |}
      end
  end.

Fixpoint units_emitted (stream_type stream_name aws_region : pystr) (n : nat)
    (rec : KinesisRecord) (c : nat) (us : list DecodedUnit) : list Emitted * option Exn :=
  match us with
  | [] => ([], None)
  | u :: us' =>
      match unit_emitted stream_type stream_name aws_region n rec c u with
      | inl e => ([], Some e)
      | inr it =>
          let rest := units_emitted stream_type stream_name aws_region n rec (S c) us' in
          (it :: fst rest, snd rest)
      end
  end.

(** The decoder on the payload of a record, from offset 0. *)
Definition record_units (rec : KinesisRecord) : list DecodedUnit * option Exn :=
  get_by_lines (StorageFactory_create (data (kinesis rec)) json_content_type
                  expand_event_list_from_field multiline_processor) 0.

Definition record_emitted (n : nat) (rec : KinesisRecord) (c : nat)
  : list Emitted * option Exn :=
  let '(stream_type, stream_name, aws_region) :=
    get_kinesis_stream_name_type_and_region_from_arn (eventSourceARN rec) in
  let out := units_emitted stream_type stream_name aws_region n rec c
               (fst (record_units rec)) in
  (fst out, match snd out with
            | Some e => Some e
            | None => snd (record_units rec)
            end).

Fixpoint records_emitted (n : nat) (c : nat) (recs : list KinesisRecord)
  : list Emitted * option Exn :=
  match recs with
  | [] => ([], None)
  | rec :: recs' =>
      let out := record_emitted n rec c in
      match snd out with
      | Some e => (fst out, Some e)
      | None =>
          let rest := records_emitted (S n) (c + length (fst out)) recs' in
          (fst out ++ fst rest, snd rest)
      end
  end.

(** How many records the outer loop gets to. *)
Fixpoint records_started (n : nat) (c : nat) (recs : list KinesisRecord) : nat :=
  match recs with
  | [] => 0
  | rec :: recs' =>
      let out := record_emitted n rec c in
      match snd out with
      | Some _ => 1
      | None => S (records_started (S n) (c + length (fst out)) recs')
      end
  end.

(** The decoded units of a batch in emission order: record by record in
    batch order, and within a record in the order of the decoder; each
    with the index of its record, counted from [n]. *)
Fixpoint batch_units (n : nat) (recs : list KinesisRecord)
  : list (nat * KinesisRecord * DecodedUnit) :=
  match recs with
  | [] => []
  | rec :: recs' =>
      map (fun u => (n, rec, u)) (fst (record_units rec)) ++ batch_units (S n) recs'
  end.

(** A unit of bytes that decode as UTF-8; a record whose decoder ends
    normally after such units. *)
Definition unit_ok (u : DecodedUnit) : bool :=
  match fst (fst (fst u)) with
  | EventBytes b =>
      match utf8_decode b with
      | Some _ => true
      | None => false
      end
  | EventReader => false
  end.

Definition record_ok (rec : KinesisRecord) : bool :=
  forallb unit_ok (fst (record_units rec))
  && match snd (record_units rec) with
     | Some _ => false
     | None => true
     end.

End Reference.

(** The yielded item [y] is the document of the unit [u] of the record
    [rec] with index [n]. *)
Definition yields_unit (h : gmap loc (gmap string val)) (y : Yielded)
    (nru : nat * KinesisRecord * DecodedUnit) : Prop :=
  let '(n, rec, (log_event, starting, ending, expanded)) := nru in
  kinesis_record_n y = n /\ ending_offset y = ending
  /\ event_expanded_offset y = expanded
  /\ exists doc b,
      read_document h (es_event y) = Some doc
      /\ log_event = EventBytes b
      /\ utf8_decode b = Some (doc_message doc)
      /\ doc_offset doc = starting
      /\ doc_sequence_number doc = sequenceNumber (kinesis rec)
      /\ doc_path doc = eventSourceARN rec.


(** ** A concrete setting

    A line decoder that honours [range_start], ARN helpers, a default
    event and a few events and clients, on which the handlers are run. *)

Module Fixture.

(** [s.split(sep)]. *)
Fixpoint split_on (sep : Z) (s : pystr) : list pystr :=
  match s with
  | [] => [[]]
  | c :: s' =>
      if c =? sep then [] :: split_on sep s'
      else match split_on sep s' with
           | r :: rs => (c :: r) :: rs
           | [] => [[c]]
           end
  end.

Definition arn_component (i : nat) (arn : pystr) : pystr :=
  nth i (split_on 58 arn) [].

Definition stream_name_type_and_region (arn : pystr) : pystr * pystr * pystr :=
  let stream_components := split_on 47 (arn_component 5 arn) in
  (nth 0 stream_components [], nth 1 stream_components [], arn_component 3 arn).

(** The lines of a payload, each with the offsets where it starts and
    where the next one starts.  A NUL byte makes the decoder raise once
    the lines before it have been produced. *)
Fixpoint lines_from (bs line : pybytes) (start pos : Z) : list DecodedUnit * option Exn :=
  match bs with
  | [] =>
      (match line with
       | [] => []
       | _ => [(EventBytes (rev line), start, pos, None)]
       end, None)
  | b :: r =>
      if Byte.eqb b x00 then ([], Some (External "ValueError"))
      else if Byte.eqb b x0a then
        let '(units, e) := lines_from r [] (pos + 1) (pos + 1) in
        ((EventBytes (rev line), start, pos + 1, None) :: units, e)
      else lines_from r (b :: line) start (pos + 1)
  end.

Definition unit_ending_offset (u : DecodedUnit) : Z :=
  let '(_, _, ending_offset, _) := u in ending_offset.

(** Units that end at or before [range_start] are not returned. *)
Definition lines_get_by_lines (storage : PayloadStorage unit unit) (range_start : Z)
  : list DecodedUnit * option Exn :=
  let '(units, e) := lines_from (payload storage) [] 0 0 in
  (List.filter (fun u => range_start <? unit_ending_offset u) units, e).

(** The default event, as dictionaries in the store. *)
Definition default_event_heap : gmap loc (gmap string val) :=
  <[0%nat := <["path" := VStr []]> ∅]>
  (<[1%nat := <["offset" := VInt 0]> (<["file" := VDict 0]> ∅)]>
  (<[2%nat := <["provider" := VStr (str_lit "aws")]> (<["region" := VStr []]> ∅)]>
  (<[3%nat := <["message" := VStr []]> (<["log" := VDict 1]> (<["cloud" := VDict 2]> ∅))]>
  (<[4%nat := ∅]>
  (<[5%nat := <["@timestamp" := VStr []]> (<["fields" := VDict 3]>
              (<["meta" := VDict 4]> ∅))]> ∅))))).

Definition initial_world : World := mkWorld default_event_heap 6 0 [] [] [] [].

#[export] Instance imports : Imports unit unit := {|
  get_account_id_from_arn := arn_component 4;
  get_kinesis_stream_name_type_and_region_from_arn := stream_name_type_and_region;
  get_by_lines := lines_get_by_lines;
  utcnow_strftime := fun n => str (Z.of_nat n);
  _default_event := VDict 5;
  recursion_limit := 1000;
|}.

Definition stream_arn : pystr :=
  str_lit "arn:aws:kinesis:us-east-1:123456789012:stream/logs".

Definition record_of (sequence_number : string) (payload : pybytes) : KinesisRecord :=
  {| kinesis := {| sequenceNumber := str_lit sequence_number; data := payload |};
     eventSourceARN := stream_arn |}.

(** A record of two lines, one whose payload is not UTF-8, one on which the
    decoder raises after its first line. *)
Definition two_lines : KinesisRecord :=
  record_of "49590338271490256608559692538361571095921575989136588898"
            [x61; x0a; x62; x63; x0a].

Definition not_utf8 : KinesisRecord := record_of "7" [xff].

Definition broken : KinesisRecord := record_of "8" [x78; x0a; x00; x79; x0a].

Definition accepting : BotoBaseClient := fun _ => None.

Definition queue_url : pystr := str_lit "https://sqs.us-east-1.amazonaws.com/123456789012/continuing".

Definition config_yaml : pystr := str_lit "inputs: []".

(** The consumer on an event, from the initial world. *)
Definition consume (event : Event) : Result unit * World :=
  _handle_kinesis_record event stream_arn tt None None initial_world.

(** A batch of two records, and one whose second record the decoder
    gives up on. *)
Definition two_records : Event := {| Records := [two_lines; two_lines] |}.

Definition interrupted : Event := {| Records := [two_lines; broken; two_lines] |}.

(** The decoder on a record, as the consumer calls it. *)
Definition decoded (rec : KinesisRecord) : list DecodedUnit * option Exn :=
  record_units None tt None rec.

End Fixture.

(** * Properties *)

(** ** Text: numerals and UTF-8 *)

Lemma ascii_string_lit s : ascii_string (str_lit s) = Some s.
Proof.
  unfold str_lit. induction s as [|a s IH]; [reflexivity|].
  cbn [String.list_ascii_of_string map ascii_string]. rewrite IH.
  unfold ascii_of_codepoint.
  pose proof (Ascii.N_ascii_bounded a) as Ha.
  replace ((0 <=? Z.of_N (Ascii.N_of_ascii a)) && (Z.of_N (Ascii.N_of_ascii a) <? 256))
    with true by (symmetry; apply andb_true_intro; lia).
  by rewrite N2Z.id, Ascii.ascii_N_embedding.
Qed.

(** The numeral written by [str] reads back as the number. *)
Lemma int_of_decimal_str n : int_of_decimal (str n) = Some n.
Proof.
  unfold int_of_decimal, str. rewrite ascii_string_lit.
  rewrite NilZero.isi.
  - cbn. by rewrite DecimalZ.of_to.
  - destruct n; cbn; [discriminate| |discriminate].
    intros E; injection E as E. by apply Unsigned.to_uint_nonnil in E.
  - destruct n; cbn; [discriminate|discriminate|].
    intros E; injection E as E. by apply Unsigned.to_uint_nonnil in E.
Qed.

Lemma str_inj a b : str a = str b -> a = b.
Proof.
  intros E. apply (f_equal int_of_decimal) in E.
  rewrite !int_of_decimal_str in E. by injection E.
Qed.














(** ** The continuation publisher *)

Section Publisher.

Context {ExpandEventListFromField ProtocolMultiline : Type}.
Context `{!Imports ExpandEventListFromField ProtocolMultiline}.

Implicit Types (sqs_client : BotoBaseClient) (w : World) (kinesis_record : KinesisRecord).

(** The whole behaviour of one call: a payload that is not UTF-8 raises
    with the world untouched; otherwise one request is handed to the
    client, and the debug record is written if the client returns. *)
Lemma handle_kinesis_continuation_run sqs_client queue leo leeo kinesis_record input_id config w :
  _handle_kinesis_continuation sqs_client queue leo leeo kinesis_record input_id config w =
  match utf8_decode (data (kinesis kinesis_record)) with
  | None => (Raise UnicodeDecodeError, w)
  | Some body =>
      let parsed := get_kinesis_stream_name_type_and_region_from_arn input_id in
      (send_message sqs_client
         {| QueueUrl := queue; MessageBody := body;
            MessageAttributes :=
              message_attributes config (fst (fst parsed)) (snd (fst parsed))
                (sequenceNumber (kinesis kinesis_record)) input_id leo leeo |} ;;;
       logger_log "debug" "continuing"
         [("sqs_continuing_queue", VStr queue);
          ("last_ending_offset", opt_int leo);
          ("last_event_expanded_offset", opt_int leeo);
          ("sequence_number", VStr (sequenceNumber (kinesis kinesis_record)))]) w
  end.
Proof.
  unfold _handle_kinesis_continuation.
  destruct (get_kinesis_stream_name_type_and_region_from_arn input_id) as [[stream_type stream_name] region].
  unfold bind at 1, decode_utf8.
  destruct (utf8_decode (data (kinesis kinesis_record))); reflexivity.
Qed.

(** With a payload that decodes, the trace of the client grows by exactly
    the request built from the arguments. *)
Lemma handle_kinesis_continuation_sent sqs_client queue leo leeo kinesis_record input_id config w body :
  utf8_decode (data (kinesis kinesis_record)) = Some body ->
  let parsed := get_kinesis_stream_name_type_and_region_from_arn input_id in
  let req := {| QueueUrl := queue; MessageBody := body;
                MessageAttributes :=
                  message_attributes config (fst (fst parsed)) (snd (fst parsed))
                    (sequenceNumber (kinesis kinesis_record)) input_id leo leeo |} in
  sqs_sent (snd (_handle_kinesis_continuation sqs_client queue leo leeo kinesis_record
                   input_id config w)) = sqs_sent w ++ [req]
  /\ fst (_handle_kinesis_continuation sqs_client queue leo leeo kinesis_record
            input_id config w) =
     match sqs_client req with None => Ok tt | Some e => Raise e end.
Proof.
  intros Hbody parsed req.
  rewrite handle_kinesis_continuation_run, Hbody. cbv zeta. fold parsed. fold req.
  unfold bind, send_message, logger_log. destruct (sqs_client req); cbn; done.
Qed.

Lemma message_attributes_ending_offset config stream_type stream_name sequence_number input_id leo leeo :
  message_attributes config stream_type stream_name sequence_number input_id leo leeo
    !! "originalLastEndingOffset"
  = (fun n => attribute (str n) (str_lit "Number")) <$> leo.
Proof.
  unfold message_attributes. destruct leo, leeo; cbn; by simplify_map_eq.
Qed.

Lemma message_attributes_expanded_offset config stream_type stream_name sequence_number input_id leo leeo :
  message_attributes config stream_type stream_name sequence_number input_id leo leeo
    !! "originalLastEventExpandedOffset"
  = (fun n => attribute (str n) (str_lit "Number")) <$> leeo.
Proof.
  unfold message_attributes. destruct leo, leeo; cbn; by simplify_map_eq.
Qed.



(** C3: for every pair of optional cursor inputs, the message handed to the
    client carries [originalLastEndingOffset] exactly when
    [last_ending_offset] is given and [originalLastEventExpandedOffset]
    exactly when [last_event_expanded_offset] is given, each as the decimal
    numeral of its value with data type Number; reading the numerals back
    gives the two optional inputs, so a given 0 differs from an absent
    value. *)
Theorem cursor_attributes_present_iff_given sqs_client queue leo leeo kinesis_record input_id
    config w body :
  utf8_decode (data (kinesis kinesis_record)) = Some body ->
  exists req,
    sqs_sent (snd (_handle_kinesis_continuation sqs_client queue leo leeo kinesis_record
                     input_id config w)) = sqs_sent w ++ [req]
    /\ MessageAttributes req !! "originalLastEndingOffset"
       = (fun n => attribute (str n) (str_lit "Number")) <$> leo
    /\ MessageAttributes req !! "originalLastEventExpandedOffset"
       = (fun n => attribute (str n) (str_lit "Number")) <$> leeo
    /\ (is_Some (MessageAttributes req !! "originalLastEndingOffset") <-> is_Some leo)
    /\ (is_Some (MessageAttributes req !! "originalLastEventExpandedOffset") <-> is_Some leeo)
    /\ (MessageAttributes req !! "originalLastEndingOffset")
         ≫= (fun a => int_of_decimal (StringValue a)) = leo
    /\ (MessageAttributes req !! "originalLastEventExpandedOffset")
         ≫= (fun a => int_of_decimal (StringValue a)) = leeo.
Proof.
  intros Hbody.
  destruct (handle_kinesis_continuation_sent sqs_client queue leo leeo kinesis_record
              input_id config w body Hbody) as [Hsent _].
  eexists. split; [exact Hsent|]. cbn [MessageAttributes].
  rewrite message_attributes_ending_offset, message_attributes_expanded_offset.
  repeat split; try (rewrite fmap_is_Some; tauto).
  - destruct leo; cbn; [apply int_of_decimal_str|done].
  - destruct leeo; cbn; [apply int_of_decimal_str|done].
Qed.

(** C4, as the code has it: a cursor with [last_event_expanded_offset]
    given and [last_ending_offset] absent is not checked.  The call hands
    one message to the client, with [originalLastEventExpandedOffset] and
    without [originalLastEndingOffset], and ends as the client answers. *)
Theorem expanded_offset_alone_is_published sqs_client queue j kinesis_record input_id config w body :
  utf8_decode (data (kinesis kinesis_record)) = Some body ->
  exists req,
    sqs_sent (snd (_handle_kinesis_continuation sqs_client queue None (Some j) kinesis_record
                     input_id config w)) = sqs_sent w ++ [req]
    /\ MessageAttributes req !! "originalLastEventExpandedOffset"
       = Some (attribute (str j) (str_lit "Number"))
    /\ MessageAttributes req !! "originalLastEndingOffset" = None
    /\ fst (_handle_kinesis_continuation sqs_client queue None (Some j) kinesis_record
              input_id config w)
       = match sqs_client req with None => Ok tt | Some e => Raise e end.
Proof.
  intros Hbody.
  destruct (handle_kinesis_continuation_sent sqs_client queue None (Some j) kinesis_record
              input_id config w body Hbody) as [Hsent Hres].
  eexists. split; [exact Hsent|]. cbn [MessageAttributes].
  rewrite message_attributes_ending_offset, message_attributes_expanded_offset.
  repeat split. exact Hres.
Qed.



(** C9: when the payload of the record is not valid UTF-8 the call raises
    [UnicodeDecodeError] and leaves the world as it was: nothing is handed
    to the client and nothing is logged. *)
Theorem invalid_utf8_raises_before_send sqs_client queue leo leeo kinesis_record input_id config w :
  utf8_decode (data (kinesis kinesis_record)) = None ->
  _handle_kinesis_continuation sqs_client queue leo leeo kinesis_record input_id config w
  = (Raise UnicodeDecodeError, w).
Proof.
  intros Hbody. by rewrite handle_kinesis_continuation_run, Hbody.
Qed.

End Publisher.

(** *** The publisher on concrete inputs *)

Import Fixture.

Lemma cursor_attributes_present_iff_given_witness :
  utf8_decode (data (kinesis two_lines)) = Some (str_lit "a" ++ [10; 98; 99; 10])
  /\ exists req,
      sqs_sent (snd (_handle_kinesis_continuation accepting queue_url (Some 0) None two_lines
                       stream_arn config_yaml initial_world)) = sqs_sent initial_world ++ [req]
      /\ MessageAttributes req !! "originalLastEndingOffset"
         = Some (attribute (str_lit "0") (str_lit "Number"))
      /\ MessageAttributes req !! "originalLastEventExpandedOffset" = None.
Proof.
  split; [reflexivity|].
  destruct (cursor_attributes_present_iff_given accepting queue_url (Some 0) None two_lines
              stream_arn config_yaml initial_world (str_lit "a" ++ [10; 98; 99; 10]) eq_refl)
    as (req & Hsent & Hend & Hexp & _).
  exists req. repeat split; assumption.
Defined.

(** C4 fails on the code: with the expanded offset given and the ending
    offset absent, the call returns normally after handing the client one
    message that carries the expanded offset alone. *)
Lemma expanded_offset_alone_counterexample :
  let run := _handle_kinesis_continuation accepting queue_url None (Some 0) two_lines
               stream_arn config_yaml initial_world in
  fst run = Ok tt
  /\ (forall e, fst run <> Raise e)
  /\ exists req,
      sqs_sent (snd run) = [req]
      /\ MessageAttributes req !! "originalLastEventExpandedOffset"
         = Some (attribute (str_lit "0") (str_lit "Number"))
      /\ MessageAttributes req !! "originalLastEndingOffset" = None.
Proof.
  cbv zeta. split; [reflexivity|]. split; [intros e; discriminate|].
  eexists. split; [reflexivity|]. split; reflexivity.
Qed.

Lemma expanded_offset_alone_is_published_witness :
  utf8_decode (data (kinesis two_lines)) = Some (str_lit "a" ++ [10; 98; 99; 10])
  /\ exists req,
      sqs_sent (snd (_handle_kinesis_continuation accepting queue_url None (Some 3) two_lines
                       stream_arn config_yaml initial_world)) = sqs_sent initial_world ++ [req]
      /\ MessageAttributes req !! "originalLastEventExpandedOffset"
         = Some (attribute (str_lit "3") (str_lit "Number"))
      /\ MessageAttributes req !! "originalLastEndingOffset" = None.
Proof.
  split; [reflexivity|].
  destruct (expanded_offset_alone_is_published accepting queue_url 3 two_lines
              stream_arn config_yaml initial_world (str_lit "a" ++ [10; 98; 99; 10]) eq_refl)
    as (req & Hsent & Hexp & Hend & _).
  exists req. repeat split; assumption.
Defined.




Lemma invalid_utf8_raises_before_send_witness :
  utf8_decode (data (kinesis not_utf8)) = None
  /\ _handle_kinesis_continuation accepting queue_url (Some 4) None not_utf8 stream_arn
       config_yaml initial_world = (Raise UnicodeDecodeError, initial_world).
Proof.
  split; [reflexivity|].
  apply (invalid_utf8_raises_before_send accepting queue_url (Some 4) None not_utf8
           stream_arn config_yaml initial_world eq_refl).
Defined.

(** ** The store under the record consumer *)

Lemma val_in_mono a b a' b' v :
  val_in a b v -> (a' <= a)%nat -> (b <= b')%nat -> val_in a' b' v.
Proof. destruct v; cbn; lia. Qed.

Lemma ext_refl w : bounded w -> Ext w w.
Proof.
  intros Hb. split; [lia|done|done|].
  intros l d k v Hl Hd. apply Hb in Hd. lia.
Qed.

Lemma inv_ext a w0 w1 w2 : Inv a w0 w1 -> Ext w1 w2 -> Inv a w0 w2.
Proof.
  intros [N1 D1 O1 W1] [N2 D2 O2 W2]. split.
  - lia.
  - done.
  - intros l Hl. rewrite O2 by lia. by apply O1.
  - intros l d k v Hl Hd Hk.
    destruct (decide (l < next_loc w1)%nat) as [Hlt|Hge].
    + rewrite O2 in Hd by done. eapply val_in_mono; [by eapply W1|lia|lia].
    + eapply val_in_mono; [eapply (W2 l); [lia|done..]|lia|lia].
Qed.

Lemma ext_trans w1 w2 w3 : Ext w1 w2 -> Ext w2 w3 -> Ext w1 w3.
Proof. apply inv_ext. Qed.

Lemma ext_subseteq w w' : bounded w -> Ext w w' -> heap w ⊆ heap w'.
Proof.
  intros Hb He. apply map_subseteq_spec. intros l d Hd.
  rewrite (inv_old _ _ _ He); [done|]. by eapply Hb.
Qed.

Lemma quiet_refl w : quiet w w.
Proof. by repeat split. Qed.

Lemma quiet_trans w1 w2 w3 : quiet w1 w2 -> quiet w2 w3 -> quiet w1 w3.
Proof. unfold quiet. intros (?&?&?&?&?) (?&?&?&?&?). repeat split; congruence. Qed.

(** Frame rules of the store operations, relative to a base [a], [w0]. *)
Section Frame.
Variables (a : loc) (w0 : World).

Lemma alloc_inv d w :
  Inv a w0 w -> map_Forall (fun _ v => val_in a (next_loc w) v) d ->
  Inv a w0 (snd (alloc d w)) /\ quiet w (snd (alloc d w))
  /\ next_loc (snd (alloc d w)) = S (next_loc w)
  /\ fst (alloc d w) = Ok (VDict (next_loc w)).
Proof.
  intros [N D O W] Hd. cbn. repeat split; unfold bounded; cbn; try done.
  - lia.
  - intros l d' Hl. destruct (decide (l = next_loc w)) as [->|Hne]; [lia|].
    rewrite lookup_insert_ne in Hl by done. apply D in Hl. lia.
  - intros l Hl. rewrite lookup_insert_ne by lia. by apply O.
  - intros l d' k v Hl Hc Hk. destruct (decide (l = next_loc w)) as [->|Hne].
    + rewrite lookup_insert_eq in Hc. injection Hc as <-.
      eapply val_in_mono; [by eapply Hd|lia|lia].
    + rewrite lookup_insert_ne in Hc by done.
      eapply val_in_mono; [by eapply W|lia|lia].
Qed.

Lemma setitem_inv o k v w :
  Inv a w0 w -> val_in a (next_loc w) o -> val_in a (next_loc w) v ->
  Inv a w0 (snd (setitem o k v w)) /\ quiet w (snd (setitem o k v w))
  /\ next_loc (snd (setitem o k v w)) = next_loc w.
Proof.
  intros HI Ho Hv. unfold setitem.
  destruct o as [| | |l]; try (cbn; split; [assumption | split; [apply quiet_refl | reflexivity]]).
  destruct (heap w !! l) as [d|] eqn:Hd;
    [|cbn; split; [assumption | split; [apply quiet_refl | reflexivity]]].
  destruct HI as [N D O W]. cbn in Ho. cbn. repeat split; unfold bounded; cbn; try done.
  - intros l' d' Hl. destruct (decide (l' = l)) as [->|Hne]; [by eapply D|].
    rewrite lookup_insert_ne in Hl by done. by eapply D.
  - intros l' Hl. rewrite lookup_insert_ne by lia. by apply O.
  - intros l' d' k' v' Hl Hc Hk. destruct (decide (l' = l)) as [->|Hne].
    + rewrite lookup_insert_eq in Hc. injection Hc as <-.
      destruct (decide (k' = k)) as [->|Hk'].
      * rewrite lookup_insert_eq in Hk. by injection Hk as <-.
      * rewrite lookup_insert_ne in Hk by done. by eapply W.
    + rewrite lookup_insert_ne in Hc by done. by eapply W.
Qed.

Lemma getitem_inv o k w :
  Inv a w0 w -> val_in a (next_loc w) o ->
  snd (getitem o k w) = w
  /\ forall v, fst (getitem o k w) = Ok v -> val_in a (next_loc w) v.
Proof.
  intros [N D O W] Ho. unfold getitem.
  destruct o as [| | |l]; try (by split).
  destruct (heap w !! l) as [d|] eqn:Hd; [|by split].
  destruct (d !! k) as [u|] eqn:Hk; [|by split].
  split; [done|]. cbn. intros v [= <-]. cbn in Ho. eapply W; [|done..]. lia.
Qed.

End Frame.

Lemma get_path_cons h v k p :
  get_path h v (k :: p) = field h v k ≫= (fun u => get_path h u p).
Proof.
  cbn. destruct v as [| | |l]; try done. cbn.
  destruct (h !! l) as [d|]; [|done]. cbn. by destruct (d !! k).
Qed.

Lemma field_mono h h' o k v : h ⊆ h' -> field h o k = Some v -> field h' o k = Some v.
Proof.
  intros Hs. destruct o as [| | |l]; try done. cbn.
  destruct (h !! l) as [d|] eqn:Hd; [|done]. by rewrite (lookup_weaken _ _ _ _ Hd Hs).
Qed.

Lemma get_path_mono h h' p : forall v u,
  h ⊆ h' -> get_path h v p = Some u -> get_path h' v p = Some u.
Proof.
  induction p as [|k p IH]; intros v u Hs; [done|].
  rewrite !get_path_cons. destruct (field h v k) as [x|] eqn:Hf; [|done].
  rewrite (field_mono _ _ _ _ _ Hs Hf). cbn. by apply IH.
Qed.

Lemma shape_mono h' h'' u u' : h' ⊆ h'' -> shape h' u u' -> shape h'' u u'.
Proof.
  intros Hs. destruct u; try done. intros (l' & -> & [d Hd]).
  exists l'. split; [done|]. exists d. by eapply lookup_weaken.
Qed.

Lemma copy_of_mono h0 h h' h'' x y :
  h0 ⊆ h -> h' ⊆ h'' -> copy_of h x h' y -> copy_of h0 x h'' y.
Proof.
  intros H0 H1 Hc p u Hp.
  destruct (Hc p u (get_path_mono _ _ _ _ _ H0 Hp)) as (u' & Hu' & Hs).
  exists u'. split; [by eapply get_path_mono|by eapply shape_mono].
Qed.

Lemma Forall2_fst_eq {A B C} (P : A * B -> A * C -> Prop) xs ys :
  Forall2 (fun x y => fst y = fst x /\ P x y) xs ys -> ys.*1 = xs.*1.
Proof. induction 1 as [|x y xs ys [E _] _ IH]; [done|]. cbn. by rewrite E, IH. Qed.

Lemma bind_inv {A B} (m : M A) (k : A -> M B) w r w' :
  bind m k w = (r, w') ->
  (exists a w1, m w = (Ok a, w1) /\ k a w1 = (r, w'))
  \/ (exists e, m w = (Raise e, w') /\ r = Raise e).
Proof.
  unfold bind. destruct (m w) as [[a|e] w1]; intros Hrun.
  - left. by exists a, w1.
  - right. injection Hrun as <- <-. by exists e.
Qed.

Lemma bind_ok {A B} (m : M A) (k : A -> M B) w a w1 :
  m w = (Ok a, w1) -> bind m k w = k a w1.
Proof. unfold bind. by intros ->. Qed.

Lemma bind_raise {A B} (m : M A) (k : A -> M B) w e w1 :
  m w = (Raise e, w1) -> bind m k w = (Raise e, w1).
Proof. unfold bind. by intros ->. Qed.

Section Deepcopy.

Lemma copied_mono w0 w w' w'' x y :
  bounded w0 -> Ext w0 w -> bounded w' -> Ext w' w'' ->
  copied w w' x y -> copied w0 w'' x y.
Proof.
  intros B0 E0 B1 E1 [Hv Hc]. split.
  - eapply val_in_mono; [done|apply E0|apply E1].
  - eapply copy_of_mono; [by apply ext_subseteq|by apply ext_subseteq|done].
Qed.

Lemma copied_atom w x : (forall l, x <> VDict l) -> copied w w x x.
Proof.
  intros Hx. split; [destruct x; try done; by destruct (Hx l)|].
  intros p u Hp. destruct p as [|k p].
  - injection Hp as <-. exists x. split; [done|]. destruct x; try done. by destruct (Hx l).
  - destruct x; try done. by destruct (Hx l).
Qed.

Lemma map_m_copy n (IH : deepcopy_post n) : forall items w r w',
  bounded w ->
  map_m (fun kv : string * val => v' <- deepcopy n (snd kv) ;; ret (fst kv, v')) items w
  = (r, w') ->
  Ext w w' /\ quiet w w'
  /\ forall items', r = Ok items' ->
       Forall2 (fun kv kv' => fst kv' = fst kv /\ copied w w' (snd kv) (snd kv'))
               items items'.
Proof.
  induction items as [|[k v] items IHitems]; intros w r w' Hb Hrun.
  { injection Hrun as <- <-. split; [by apply ext_refl|]. split; [apply quiet_refl|].
    intros ? [= <-]. constructor. }
  cbn [map_m] in Hrun.
  apply bind_inv in Hrun as [(kv' & w1 & Hhead & Hrun)|(e & Hhead & ->)].
  - apply bind_inv in Hhead as [(v' & w1' & Hcopy & Hret)|(e & Hcopy & [=])].
    injection Hret as <- <-.
    destruct (IH _ _ _ _ Hb Hcopy) as (E1 & Q1 & C1).
    assert (bounded w1') as Hb1 by apply E1.
    apply bind_inv in Hrun as [(ys & w2 & Hrest & Hret)|(e & Hrest & ->)].
    + injection Hret as <- <-.
      destruct (IHitems _ _ _ Hb1 Hrest) as (E2 & Q2 & C2).
      assert (bounded w2) as Hb2 by apply E2.
      split; [by eapply ext_trans|]. split; [by eapply quiet_trans|].
      intros ? [= <-]. constructor.
      * split; [done|]. cbn [snd].
        eapply (copied_mono w w w1' w2); [done|by apply ext_refl|done|done|by apply C1].
      * eapply Forall2_impl; [by apply C2|]. cbn. intros x y [Hk Hc]. split; [done|].
        eapply (copied_mono w w1' w2 w2); [done|done|done|by apply ext_refl|done].
    + destruct (IHitems _ _ _ Hb1 Hrest) as (E2 & Q2 & C2).
      split; [by eapply ext_trans|]. split; [by eapply quiet_trans|]. done.
  - apply bind_inv in Hhead as [(v' & w1' & Hcopy & [=])|(e' & Hcopy & _)].
    destruct (IH _ _ _ _ Hb Hcopy) as (E1 & Q1 & C1). by split; [|split].
Qed.

Lemma deepcopy_spec n : deepcopy_post n.
Proof.
  induction n as [|n IH]; intros x w r w' Hb Hrun.
  - destruct x as [| | |l]; injection Hrun as <- <-;
      (split; [by apply ext_refl|]); (split; [apply quiet_refl|]);
      try done; intros y [= <-]; by apply copied_atom.
  - destruct x as [| | |l];
      try (injection Hrun as <- <-;
           (split; [by apply ext_refl|]); (split; [apply quiet_refl|]);
           intros y [= <-]; by apply copied_atom).
    cbn [deepcopy] in Hrun. destruct (heap w !! l) as [d|] eqn:Hd.
    2:{ injection Hrun as <- <-. split; [by apply ext_refl|]. split; [apply quiet_refl|done]. }
    apply bind_inv in Hrun as [(items' & wk & Hitems & Hrun)|(e & Hitems & ->)].
    2:{ destruct (map_m_copy n IH _ _ _ _ Hb Hitems) as (E1 & Q1 & C1). by split; [|split]. }
    destruct (map_m_copy n IH _ _ _ _ Hb Hitems) as (E1 & Q1 & C1).
    specialize (C1 items' eq_refl).
    assert (bounded wk) as Hbk by apply E1.
    assert (map_Forall (fun _ v => val_in (next_loc w) (next_loc wk) v)
              (list_to_map items' : gmap string val)) as Hvals.
    { intros k v Hk. apply elem_of_list_to_map_2 in Hk.
      apply list_elem_of_lookup in Hk as [i Hi].
      destruct (Forall2_lookup_r _ _ _ _ _ C1 Hi) as (kv & _ & _ & Hv & _). exact Hv. }
    destruct (alloc_inv (next_loc w) w (list_to_map items') wk E1 Hvals) as (E2 & Q2 & N2 & R2).
    rewrite Hrun in E2, Q2, N2, R2. cbn [fst snd] in *. subst r.
    split; [exact E2|]. split; [by eapply quiet_trans|].
    intros y [= <-]. split.
    { cbn. rewrite N2. destruct E1. lia. }
    assert (heap wk ⊆ heap w') as Hsub.
    { injection Hrun as <-. cbn. apply insert_subseteq.
      destruct (heap wk !! next_loc wk) eqn:Hc; [|done]. apply Hbk in Hc. lia. }
    assert (heap w' !! next_loc wk = Some (list_to_map items')) as Hnew.
    { injection Hrun as <-. cbn. apply lookup_insert_eq. }
    intros p u Hp. destruct p as [|k p].
    + injection Hp as <-. eexists. split; [done|]. eexists. split; [done|]. by eexists.
    + cbn in Hp. rewrite Hd in Hp. destruct (d !! k) as [v|] eqn:Hk; [|done].
      apply elem_of_map_to_list in Hk. apply list_elem_of_lookup in Hk as [i Hi].
      destruct (Forall2_lookup_l _ _ _ _ _ C1 Hi) as ([k' v'] & Hi' & Hfst & _ & Hcopy).
      cbn in Hfst, Hcopy. subst k'.
      destruct (Hcopy p u Hp) as (u' & Hu' & Hs).
      exists u'. split; [|by eapply shape_mono].
      cbn. rewrite Hnew.
      assert ((list_to_map items' : gmap string val) !! k = Some v') as ->.
      { apply elem_of_list_to_map_1.
        - rewrite (Forall2_fst_eq _ _ _ C1). apply NoDup_fst_map_to_list.
        - apply list_elem_of_lookup. by exists i. }
      by eapply get_path_mono.
Qed.

End Deepcopy.

Lemma depth_leb_mono h h' n : forall v,
  h ⊆ h' -> depth_leb h n v = true -> depth_leb h' n v = true.
Proof.
  induction n as [|n IH]; intros v Hs; destruct v as [| | |l]; try done.
  cbn. destruct (h !! l) as [d|] eqn:Hd; [|done].
  rewrite (lookup_weaken _ _ _ _ Hd Hs). rewrite !forallb_forall.
  intros Hall kv Hin. apply IH; [done|]. by apply Hall.
Qed.

Lemma map_m_copy_ok n
    (IH : forall x w, bounded w -> depth_leb (heap w) n x = true ->
          exists y w', deepcopy n x w = (Ok y, w')) :
  forall items w, bounded w ->
    (forall kv, In kv items -> depth_leb (heap w) n (snd kv) = true) ->
    exists items' w',
      map_m (fun kv : string * val => v' <- deepcopy n (snd kv) ;; ret (fst kv, v')) items w
      = (Ok items', w').
Proof.
  induction items as [|[k v] items IHitems]; intros w Hb Hall;
    [eexists _, _; reflexivity|].
  destruct (IH v w Hb (Hall (k, v) (or_introl eq_refl))) as (v' & w1 & Hcopy).
  destruct (deepcopy_spec n _ _ _ _ Hb Hcopy) as (E1 & _ & _).
  assert (bounded w1) as Hb1 by apply E1.
  destruct (IHitems w1 Hb1) as (items' & w2 & Hrest).
  { intros kv Hin. eapply depth_leb_mono; [by apply (ext_subseteq w w1)|]. apply Hall. by right. }
  exists ((k, v') :: items'), w2. cbn [map_m].
  erewrite bind_ok; [|by erewrite bind_ok]. by erewrite bind_ok.
Qed.

Lemma deepcopy_ok n : forall x w,
  bounded w -> depth_leb (heap w) n x = true -> exists y w', deepcopy n x w = (Ok y, w').
Proof.
  induction n as [|n IH]; intros x w Hb Hdepth; destruct x as [| | |l]; try done;
    try (eexists _, _; reflexivity).
  cbn in Hdepth. cbn [deepcopy]. destruct (heap w !! l) as [d|] eqn:Hd; [|done].
  rewrite forallb_forall in Hdepth.
  destruct (map_m_copy_ok n IH (map_to_list d) w Hb Hdepth) as (items' & wk & Hitems).
  erewrite bind_ok by done. eexists _, _; reflexivity.
Qed.

Lemma wpe_bind {A B} (m : M A) (k : A -> M B) Q E w :
  wpe m (fun a w' => wpe (k a) Q E w') E w -> wpe (bind m k) Q E w.
Proof. unfold wpe, bind. by destruct (m w) as [[a|e] w']. Qed.

Lemma wpe_ret {A} (a : A) (Q : A -> World -> Prop) E w : Q a w -> wpe (ret a) Q E w.
Proof. done. Qed.

Lemma wpe_raise {A} e (Q : A -> World -> Prop) (E : Exn -> World -> Prop) w :
  E e w -> wpe (raise e) Q E w.
Proof. done. Qed.

Lemma wpe_run {A} (m : M A) Q E w r w' :
  wpe m Q E w -> m w = (r, w') ->
  match r with Ok a => Q a w' | Raise e => E e w' end.
Proof. unfold wpe. intros H Hrun. by rewrite Hrun in H. Qed.

Lemma quiet_calm w w' : quiet w w' -> calm w w'.
Proof. unfold quiet, calm. tauto. Qed.

Lemma calm_refl w : calm w w.
Proof. by repeat split. Qed.

Lemma calm_trans w1 w2 w3 : calm w1 w2 -> calm w2 w3 -> calm w1 w3.
Proof. unfold calm. intros (?&?&?&?) (?&?&?&?). repeat split; congruence. Qed.

Lemma inv_same_store a w0 w w' :
  heap w' = heap w -> next_loc w' = next_loc w -> Inv a w0 w -> Inv a w0 w'.
Proof.
  intros Hh Hn [N D O W]. split; unfold bounded in *; rewrite ?Hh, ?Hn; try done.
Qed.

Section FrameRules.
Variables (a : loc) (w0 : World).

Lemma wpe_getitem o k Q w :
  St a w0 w -> val_in a (next_loc w) o ->
  (forall v, val_in a (next_loc w) v -> Q v w) ->
  wpe (getitem o k) Q (E_frame a w0) w.
Proof.
  intros HS Ho HQ. destruct (getitem_inv a w0 o k w (proj1 HS) Ho) as [Hw Hv].
  unfold wpe. destruct (getitem o k w) as [[v|e] w'] eqn:Hrun; cbn in Hw; subst w'.
  - apply HQ. by apply Hv.
  - exact HS.
Qed.

Lemma wpe_setitem o k v Q w :
  St a w0 w -> val_in a (next_loc w) o -> val_in a (next_loc w) v ->
  (forall w', St a w0 w' -> next_loc w' = next_loc w -> Q tt w') ->
  wpe (setitem o k v) Q (E_frame a w0) w.
Proof.
  intros [HI HC] Ho Hv HQ. destruct (setitem_inv a w0 o k v w HI Ho Hv) as (HI' & Hq & Hn).
  unfold wpe. destruct (setitem o k v w) as [[[]|e] w'] eqn:Hrun; cbn in *.
  - apply HQ; [|done]. split; [done|]. eapply calm_trans; [done|by apply quiet_calm].
  - split; [done|]. eapply calm_trans; [done|by apply quiet_calm].
Qed.

Lemma wpe_alloc d Q w :
  St a w0 w -> map_Forall (fun _ v => val_in a (next_loc w) v) d ->
  (forall w', St a w0 w' -> next_loc w' = S (next_loc w) -> Q (VDict (next_loc w)) w') ->
  wpe (alloc d) Q (E_frame a w0) w.
Proof.
  intros [HI HC] Hd HQ. destruct (alloc_inv a w0 d w HI Hd) as (HI' & Hq & Hn & Hr).
  unfold wpe. destruct (alloc d w) as [r w'] eqn:Hrun. cbn in *. subst r.
  apply HQ; [|done]. split; [done|]. eapply calm_trans; [done|by apply quiet_calm].
Qed.

Lemma wpe_deepcopy n x Q w :
  St a w0 w ->
  (forall y w', St a w0 w' -> (next_loc w <= next_loc w')%nat -> val_in a (next_loc w') y -> Q y w') ->
  wpe (deepcopy n x) Q (E_frame a w0) w.
Proof.
  intros [HI HC] HQ. unfold wpe. destruct (deepcopy n x w) as [r w'] eqn:Hrun.
  destruct (deepcopy_spec n x w r w' (inv_dom _ _ _ HI) Hrun) as (He & Hq & Hc).
  assert (St a w0 w') as HS'.
  { split; [by eapply inv_ext|]. eapply calm_trans; [done|by apply quiet_calm]. }
  destruct r as [y|e]; [|done].
  apply HQ; [done|apply He|]. destruct (Hc y eq_refl) as [Hv _].
  eapply val_in_mono; [done|apply HI|lia].
Qed.

Lemma wpe_utcnow `{!Imports X Y} Q w :
  St a w0 w -> (forall t w', St a w0 w' -> next_loc w' = next_loc w -> Q t w') ->
  wpe utcnow Q (E_frame a w0) w.
Proof.
  intros [HI HC] HQ. unfold wpe, utcnow. apply HQ; [|done].
  split; [by apply (inv_same_store a w0 w)|]. exact HC.
Qed.

Lemma wpe_decode_utf8 b Q w :
  St a w0 w -> (forall s, Q s w) -> wpe (decode_utf8 b) Q (E_frame a w0) w.
Proof.
  intros HS HQ. unfold wpe, decode_utf8.
  destruct (utf8_decode b); [apply HQ|exact HS].
Qed.

End FrameRules.

Ltac vals :=
  first [ exact I | assumption | cbn; lia
        | eapply val_in_mono; [eassumption | lia | lia] ].

Ltac dict_vals :=
  repeat (apply map_Forall_insert_2; [vals|]); apply map_Forall_empty.

Section BodyFrame.
Context {X Y : Type} `{!Imports X Y}.

Lemma handle_decoded_unit_frame account_id stream_type stream_name aws_region n rec u w r w' :
  bounded w ->
  handle_decoded_unit account_id stream_type stream_name aws_region n rec u w = (r, w') ->
  Ext w w' /\ sqs_sent w' = sqs_sent w /\ storage_calls w' = storage_calls w
  /\ log_records w' = log_records w
  /\ match r with
     | Ok _ => exists doc, yielded w' = yielded w ++ [item_of u n doc]
                           /\ val_in (next_loc w) (next_loc w') doc
     | Raise _ => yielded w' = yielded w
     end.
Proof.
  intros Hb Hrun.
  set (a := next_loc w).
  assert (St a w w) as S0 by (split; [by apply ext_refl|apply calm_refl]).
  cut (wpe (handle_decoded_unit account_id stream_type stream_name aws_region n rec u)
         (fun _ w' => Inv a w w' /\ sqs_sent w' = sqs_sent w
                      /\ storage_calls w' = storage_calls w
                      /\ log_records w' = log_records w
                      /\ exists doc, yielded w' = yielded w ++ [item_of u n doc]
                                     /\ val_in a (next_loc w') doc)
         (E_frame a w) w).
  { intros Hwp. pose proof (wpe_run _ _ _ _ _ _ Hwp Hrun) as Hpost.
    destruct r as [[]|e]; [exact Hpost|].
    destruct Hpost as [HI (?&?&?&?)]. split; [exact HI|]. by repeat split. }
  destruct u as [[[log_event s] e] x]. unfold handle_decoded_unit.
  destruct log_event as [b|]; [|by apply wpe_raise].
  apply wpe_bind, wpe_deepcopy; [done|]. intros es w1 S1 N1 Hes.
  apply wpe_bind, wpe_utcnow; [done|]. intros t w2 S2 N2.
  apply wpe_bind, wpe_setitem; [done|vals|vals|]. intros w3 S3 N3.
  apply wpe_bind, wpe_decode_utf8; [done|]. intros message.
  apply wpe_bind, wpe_getitem; [done|vals|]. intros fields1 Hf1.
  apply wpe_bind, wpe_setitem; [done|vals|vals|]. intros w4 S4 N4.
  apply wpe_bind, wpe_getitem; [done|vals|]. intros fields2 Hf2.
  apply wpe_bind, wpe_getitem; [done|vals|]. intros log2 Hl2.
  apply wpe_bind, wpe_setitem; [done|vals|vals|]. intros w5 S5 N5.
  apply wpe_bind, wpe_getitem; [done|vals|]. intros fields3 Hf3.
  apply wpe_bind, wpe_getitem; [done|vals|]. intros log3 Hl3.
  apply wpe_bind, wpe_getitem; [done|vals|]. intros file3 Hfile3.
  apply wpe_bind, wpe_setitem; [done|vals|vals|]. intros w6 S6 N6.
  apply wpe_bind, wpe_alloc; [done|dict_vals|]. intros w7 S7 N7.
  apply wpe_bind, wpe_alloc; [done|dict_vals|]. intros w8 S8 N8.
  apply wpe_bind, wpe_getitem; [done|vals|]. intros fields4 Hf4.
  apply wpe_bind, wpe_setitem; [done|vals|vals|]. intros w9 S9 N9.
  apply wpe_bind, wpe_getitem; [done|vals|]. intros fields5 Hf5.
  apply wpe_bind, wpe_getitem; [done|vals|]. intros cloud5 Hc5.
  apply wpe_bind, wpe_setitem; [done|vals|vals|]. intros w10 S10 N10.
  apply wpe_bind, wpe_alloc; [done|dict_vals|]. intros w11 S11 N11.
  apply wpe_bind, wpe_getitem; [done|vals|]. intros fields6 Hf6.
  apply wpe_bind, wpe_getitem; [done|vals|]. intros cloud6 Hc6.
  apply wpe_bind, wpe_setitem; [done|vals|vals|]. intros w12 S12 N12.
  unfold wpe, yield. cbn.
  destruct S12 as [HI (Hsqs & Hst & Hlog & Hy)].
  split; [by apply (inv_same_store a w w12)|].
  repeat split; try done. exists es. rewrite Hy. split; [done|]. vals.
Qed.

End BodyFrame.

Lemma field_is_obj h o k v : field h o k = Some v -> is_obj h o.
Proof.
  destruct o as [| | |l]; try done. cbn. destruct (h !! l); [by eexists|done].
Qed.

Lemma know_field h P O o k v : Know h P O -> In (o, k, v) P -> field h o k = Some v.
Proof.
  intros [HP _] Hin. rewrite Forall_forall in HP. apply list_elem_of_In in Hin.
  exact (HP _ Hin).
Qed.

Lemma know_obj h P O o :
  Know h P O -> (In o O \/ exists k v, In (o, k, v) P) -> is_obj h o.
Proof.
  intros [HP HO] [Hin|(k & v & Hin)].
  - rewrite Forall_forall in HO. apply HO. by apply list_elem_of_In.
  - eapply field_is_obj. by eapply (know_field h P O).
Qed.

Section RunRules.
Variable (w0 : World).

Lemma wpd_getitem P O c o k v Q E w :
  Cur w0 P O c w -> In (o, k, v) P -> Q v w -> wpe (getitem o k) Q E w.
Proof.
  intros (_ & HK & _) Hin HQ. pose proof (know_field _ _ _ _ _ _ HK Hin) as Hf.
  unfold wpe, getitem. destruct o as [| | |l]; try done. cbn in Hf.
  destruct (heap w !! l) as [d|]; [|done]. cbn in Hf. by rewrite Hf.
Qed.

Lemma wpd_setitem P O c o k v Q E w :
  Cur w0 P O c w -> (In o O \/ exists k0 v0, In (o, k0, v0) P) ->
  Forall (fun f => snd (fst f) <> k) P ->
  (forall w', Cur w0 ((o, k, v) :: P) O c w' -> next_loc w' = next_loc w -> Q tt w') ->
  wpe (setitem o k v) Q E w.
Proof.
  intros (Hb & HK & Hc & Hcalm) Ho Hne HQ.
  pose proof (know_obj _ _ _ _ HK Ho) as Hobj.
  unfold wpe, setitem. destruct o as [| | |l]; try done. cbn in Hobj.
  destruct Hobj as [d Hd]. rewrite Hd. apply HQ; [|done].
  split; [|split; [|by split]].
  - intros l' d'. cbn. destruct (decide (l' = l)) as [->|Hl].
    + intros _. by eapply Hb.
    + rewrite lookup_insert_ne by done. apply Hb.
  - destruct HK as [HP HO]. split.
    + constructor.
      * cbn. rewrite lookup_insert_eq. cbn. by rewrite lookup_insert_eq.
      * rewrite Forall_forall in HP, Hne. apply Forall_forall.
        intros [[o' k'] v'] Hin. specialize (HP _ Hin). specialize (Hne _ Hin).
        cbn in *. destruct o' as [| | |l']; try done. cbn in *.
        destruct (decide (l' = l)) as [->|Hl].
        -- rewrite lookup_insert_eq. cbn. rewrite Hd in HP. cbn in HP.
           by rewrite lookup_insert_ne.
        -- by rewrite lookup_insert_ne.
    + eapply Forall_impl; [exact HO|]. intros o' Ho'. destruct o' as [| | |l']; try done.
      cbn in *. destruct (decide (l' = l)) as [->|Hl].
      * rewrite lookup_insert_eq. by eexists.
      * by rewrite lookup_insert_ne.
Qed.

Lemma wpd_alloc P O c d (N : list (string * val)) Q E w :
  Cur w0 P O c w -> Forall (fun kv => d !! fst kv = Some (snd kv)) N ->
  (forall w',
     Cur w0 (map (fun kv => (VDict (next_loc w), fst kv, snd kv)) N ++ P)
            (VDict (next_loc w) :: O) c w' ->
     next_loc w' = S (next_loc w) -> Q (VDict (next_loc w)) w') ->
  wpe (alloc d) Q E w.
Proof.
  intros (Hb & HK & Hc & Hcalm) HN HQ. unfold wpe, alloc. apply HQ; [|done].
  assert (heap w !! next_loc w = None) as Hfresh.
  { destruct (heap w !! next_loc w) eqn:Hl; [|done]. apply Hb in Hl. lia. }
  assert (forall o, is_obj (heap w) o -> o <> VDict (next_loc w)) as Hold.
  { intros o Ho ->. cbn in Ho. rewrite Hfresh in Ho. by destruct Ho. }
  split; [|split; [|by split]].
  - intros l' d'. cbn. destruct (decide (l' = next_loc w)) as [->|Hl]; [lia|].
    rewrite lookup_insert_ne by done. intros Hl'. apply Hb in Hl'. lia.
  - destruct HK as [HP HO]. split.
    + apply Forall_app. split.
      * apply Forall_map. eapply Forall_impl; [exact HN|]. intros [k v] Hk.
        cbn in *. by rewrite lookup_insert_eq.
      * eapply Forall_impl; [exact HP|]. intros [[o' k'] v'] Hf. cbn in *.
        pose proof (Hold _ (field_is_obj _ _ _ _ Hf)) as Hne.
        destruct o' as [| | |l']; try done. cbn in *.
        rewrite lookup_insert_ne; [done|]. congruence.
    + constructor; [cbn; rewrite lookup_insert_eq; by eexists|].
      eapply Forall_impl; [exact HO|]. intros o' Ho'. pose proof (Hold _ Ho') as Hne.
      destruct o' as [| | |l']; try done. cbn in *.
      rewrite lookup_insert_ne; [done|]. congruence.
Qed.

Lemma wpd_utcnow `{!Imports X Y} P O c Q E w :
  Cur w0 P O c w ->
  (forall w', Cur w0 P O (S c) w' -> next_loc w' = next_loc w ->
              Q (utcnow_strftime (clock w0 + c)%nat) w') ->
  wpe utcnow Q E w.
Proof.
  intros (Hb & HK & Hc & Hcalm) HQ. unfold wpe, utcnow. rewrite Hc. apply HQ; [|done].
  split; [done|]. split; [done|]. split; [cbn; lia|done].
Qed.

Lemma wpd_decode_utf8 b s Q E w :
  utf8_decode b = Some s -> Q s w -> wpe (decode_utf8 b) Q E w.
Proof. intros Hs HQ. unfold wpe, decode_utf8. by rewrite Hs. Qed.

End RunRules.

Lemma get_path_cons_inv h v k p u :
  get_path h v (k :: p) = Some u ->
  exists x, field h v k = Some x /\ get_path h x p = Some u.
Proof.
  rewrite get_path_cons. destruct (field h v k) as [x|]; [|done]. cbn. by exists x.
Qed.

Lemma get_path_step h o k v p :
  field h o k = Some v -> get_path h o (k :: p) = get_path h v p.
Proof. intros Hf. by rewrite get_path_cons, Hf. Qed.

Section Template.
Context {X Y : Type} `{!Imports X Y}.

Lemma has_dict_path h v p :
  has_dict h v p = true -> exists l, get_path h v p = Some (VDict l).
Proof.
  unfold has_dict. destruct (get_path h v p) as [[| | |l]|]; try done. by exists l.
Qed.

Lemma template_ok_mono h h' : h ⊆ h' -> template_ok h = true -> template_ok h' = true.
Proof.
  unfold template_ok. intros Hs Hok.
  apply andb_prop in Hok as [Hok Hc]. apply andb_prop in Hok as [Hd Hf].
  apply has_dict_path in Hc as [lc Hc]. apply has_dict_path in Hf as [lf Hf].
  rewrite (depth_leb_mono _ _ _ _ Hs Hd). unfold has_dict.
  by rewrite (get_path_mono _ _ _ _ _ Hs Hc), (get_path_mono _ _ _ _ _ Hs Hf).
Qed.

Lemma wpd_deepcopy_default Q E w :
  bounded w -> template_ok (heap w) = true ->
  (forall es f g fl c w',
     Cur w [(es, "fields", f); (f, "log", g); (g, "file", fl); (f, "cloud", c)]
           [es; fl; c] 0 w' ->
     Ext w w' -> Q es w') ->
  wpe (deepcopy recursion_limit _default_event) Q E w.
Proof.
  intros Hb Hok HQ. unfold template_ok in Hok.
  apply andb_prop in Hok as [Hok Hc]. apply andb_prop in Hok as [Hd Hf].
  apply has_dict_path in Hc as [lc Hc]. apply has_dict_path in Hf as [lf Hf].
  destruct (deepcopy_ok _ _ _ Hb Hd) as (es & w' & Hrun).
  destruct (deepcopy_spec _ _ _ _ _ Hb Hrun) as (He & Hq & Hcopy).
  destruct (Hcopy es eq_refl) as [_ Hco].
  destruct (Hco _ _ Hf) as (fl & Hfl & (lfl & -> & Hflobj)).
  destruct (Hco _ _ Hc) as (c & Hcl & (lcl & -> & Hclobj)).
  apply get_path_cons_inv in Hfl as (f & Hf1 & Hfl).
  apply get_path_cons_inv in Hfl as (g & Hg1 & Hfl).
  apply get_path_cons_inv in Hfl as (fl & Hfl1 & [= ->]).
  apply get_path_cons_inv in Hcl as (f' & Hf2 & Hcl).
  apply get_path_cons_inv in Hcl as (c & Hc1 & [= ->]).
  assert (f' = f) as -> by congruence.
  unfold wpe. rewrite Hrun. apply (HQ es f g (VDict lfl) (VDict lcl)); [|done].
  split; [apply He|]. split; [|split; [|by apply quiet_calm]].
  - split; [by repeat constructor|].
    repeat constructor; try done. by eapply field_is_obj.
  - destruct Hq as [-> _]. lia.
Qed.

End Template.

Ltac known := cbn; tauto.
Ltac other_keys := repeat constructor; cbn; discriminate.
Ltac entries := repeat constructor; cbn; by simplify_map_eq.

Section BodyRun.
Context {X Y : Type} `{!Imports X Y}.

Lemma handle_decoded_unit_run account_id stream_type stream_name aws_region n rec
    b s e x message w :
  bounded w -> template_ok (heap w) = true -> utf8_decode b = Some message ->
  exists w' es,
    handle_decoded_unit account_id stream_type stream_name aws_region n rec
      (EventBytes b, s, e, x) w = (Ok tt, w')
    /\ clock w' = S (clock w)
    /\ yielded w' = yielded w ++ [item_of (EventBytes b, s, e, x) n es]
    /\ read_document (heap w') es
       = Some {| doc_timestamp := utcnow_strftime (clock w); doc_message := message;
                 doc_offset := s; doc_path := eventSourceARN rec;
                 doc_type := stream_type; doc_name := stream_name;
                 doc_sequence_number := sequenceNumber (kinesis rec);
                 doc_region := aws_region; doc_account_id := account_id |}.
Proof.
  intros Hb Hok Hmsg.
  cut (wpe (handle_decoded_unit account_id stream_type stream_name aws_region n rec
              (EventBytes b, s, e, x))
         (fun _ w' =>
            clock w' = S (clock w)
            /\ exists es,
                yielded w' = yielded w ++ [item_of (EventBytes b, s, e, x) n es]
                /\ read_document (heap w') es
                   = Some {| doc_timestamp := utcnow_strftime (clock w);
                             doc_message := message;
                             doc_offset := s; doc_path := eventSourceARN rec;
                             doc_type := stream_type; doc_name := stream_name;
                             doc_sequence_number := sequenceNumber (kinesis rec);
                             doc_region := aws_region; doc_account_id := account_id |})
         (fun _ _ => False) w).
  { unfold wpe. destruct (handle_decoded_unit _ _ _ _ _ _ _ w) as [[[]|err] w']; [|done].
    intros (Hc & es & Hy & Hdoc). by exists w', es. }
  unfold handle_decoded_unit.
  apply wpe_bind, wpd_deepcopy_default; [done|done|]. intros es f g fl c w1 C1 _.
  eapply wpe_bind, wpd_utcnow; [exact C1|]. intros w2 C2 _.
  eapply wpe_bind, wpd_setitem; [exact C2|known|other_keys|]. intros w3 C3 _.
  eapply wpe_bind, wpd_decode_utf8; [exact Hmsg|].
  eapply wpe_bind, wpd_getitem; [exact C3|known|].
  eapply wpe_bind, wpd_setitem; [exact C3|right; eexists _, _; known|other_keys|].
  intros w4 C4 _.
  eapply wpe_bind, wpd_getitem; [exact C4|known|].
  eapply wpe_bind, wpd_getitem; [exact C4|known|].
  eapply wpe_bind, wpd_setitem; [exact C4|right; eexists _, _; known|other_keys|].
  intros w5 C5 _.
  eapply wpe_bind, wpd_getitem; [exact C5|known|].
  eapply wpe_bind, wpd_getitem; [exact C5|known|].
  eapply wpe_bind, wpd_getitem; [exact C5|known|].
  eapply wpe_bind, wpd_setitem; [exact C5|known|other_keys|]. intros w6 C6 _.
  eapply wpe_bind, (wpd_alloc _ _ _ _ _
                      [("sequence_number", VStr (sequenceNumber (kinesis rec)));
                       ("name", VStr stream_name); ("type", VStr stream_type)]);
    [exact C6|entries|]. intros w7 C7 N7.
  eapply wpe_bind, (wpd_alloc _ _ _ _ _ [("kinesis", VDict (next_loc w6))]);
    [exact C7|entries|]. intros w8 C8 N8. cbn [map app fst snd] in C8.
  eapply wpe_bind, wpd_getitem; [exact C8|known|].
  eapply wpe_bind, wpd_setitem; [exact C8|right; eexists _, _; known|other_keys|].
  intros w9 C9 N9.
  eapply wpe_bind, wpd_getitem; [exact C9|known|].
  eapply wpe_bind, wpd_getitem; [exact C9|known|].
  eapply wpe_bind, wpd_setitem; [exact C9|known|other_keys|]. intros w10 C10 N10.
  eapply wpe_bind, (wpd_alloc _ _ _ _ _ [("id", VStr account_id)]);
    [exact C10|entries|]. intros w11 C11 N11. cbn [map app fst snd] in C11.
  eapply wpe_bind, wpd_getitem; [exact C11|known|].
  eapply wpe_bind, wpd_getitem; [exact C11|known|].
  eapply wpe_bind, wpd_setitem; [exact C11|right; eexists _, _; known|other_keys|].
  intros w12 C12 N12.
  unfold wpe, yield. cbn [heap clock yielded].
  destruct C12 as (_ & [HP _] & Hclock & (_ & _ & _ & Hy)).
  split; [lia|]. exists es. split; [by rewrite Hy|].
  repeat (apply Forall_cons in HP as [? HP]). cbn [fst snd] in *.
  unfold read_document, read_str, read_int.
  repeat (erewrite get_path_step by eassumption). cbn.
  replace (clock w + 0)%nat with (clock w) by lia. reflexivity.
Qed.

End BodyRun.

Lemma closed_ext w w' : closed w -> Ext w w' -> closed w'.
Proof.
  intros [Hb Hc] He. split; [apply He|].
  intros l d k v Hl Hk. destruct (decide (l < next_loc w)%nat) as [Hlt|Hge].
  - rewrite (inv_old _ _ _ He) in Hl by done.
    eapply val_in_mono; [by eapply Hc|lia|apply He].
  - eapply val_in_mono; [eapply (inv_new _ _ _ He l); [lia|done..]|lia|lia].
Qed.

Lemma reachable_segment a w0 w v l :
  Inv a w0 w -> val_in a (next_loc w) v -> reachable (heap w) v l ->
  (a <= l < next_loc w)%nat.
Proof.
  intros HI Hv Hr. induction Hr as [l|l d k v l' Hl Hk _ IH]; [done|].
  apply IH. cbn in Hv. eapply (inv_new _ _ _ HI l); [lia|done..].
Qed.

Lemma reachable_ext w w' v l :
  closed w -> Ext w w' -> val_in 0%nat (next_loc w) v ->
  reachable (heap w') v l -> reachable (heap w) v l.
Proof.
  intros [Hb Hc] He Hv Hr. induction Hr as [l|l d k v l' Hl Hk _ IH]; [constructor|].
  cbn in Hv. rewrite (inv_old _ _ _ He) in Hl by lia.
  econstructor; [done..|]. apply IH. by eapply Hc.
Qed.

Lemma separated_le h a ys b : separated h a ys b -> (a <= b)%nat.
Proof. induction 1; lia. Qed.

Lemma separated_app h a ys1 m ys2 b :
  separated h a ys1 m -> separated h m ys2 b -> separated h a (ys1 ++ ys2) b.
Proof.
  induction 1 as [a m Hle|a m' y ys m Hle Hy _ IH]; intros H2.
  - destruct H2 as [m b Hmb|m m2 y ys b Hm Hy Hrest].
    + constructor. lia.
    + cbn. apply (separated_cons h a m2);
        [lia|intros l Hl; specialize (Hy l Hl); lia|exact Hrest].
  - cbn. econstructor; [done..|]. by apply IH.
Qed.

Lemma separated_upper h a ys b b' :
  separated h a ys b -> (b <= b')%nat -> separated h a ys b'.
Proof.
  induction 1 as [a b Hle|a m y ys b Hle Hy _ IH]; intros Hb.
  - constructor. lia.
  - econstructor; [done..|]. by apply IH.
Qed.

Lemma separated_ext w w' a ys b :
  closed w -> Ext w w' -> (b <= next_loc w)%nat ->
  separated (heap w) a ys b -> separated (heap w') a ys b.
Proof.
  intros Hc He Hb Hs. induction Hs as [a b Hle|a m y ys b Hle Hy Hrest IH].
  - by constructor.
  - pose proof (separated_le _ _ _ _ Hrest) as Hmb.
    econstructor; [done| |by apply IH].
    intros l Hl. destruct (es_event y) as [| | |l0] eqn:Hev; try by inversion Hl.
    assert (reachable (heap w) (VDict l0) l0) as Hself by constructor.
    specialize (Hy _ Hself) as Hl0.
    apply Hy. eapply reachable_ext; [done|done| |done]. cbn. lia.
Qed.

Lemma inv_base_same a w0 w0' w :
  heap w0' = heap w0 -> Inv a w0 w -> Inv a w0' w.
Proof. intros Hh [N D O W]. split; try done. intros l Hl. rewrite Hh. by apply O. Qed.

Lemma closed_same_store w w' :
  heap w' = heap w -> next_loc w' = next_loc w -> closed w -> closed w'.
Proof.
  intros Hh Hn [Hb Hc]. unfold closed, bounded in *. rewrite Hh, Hn. by split.
Qed.

Section LoopsFrame.
Context {X Y : Type} `{!Imports X Y}.
Variables (account_id : pystr) (json_content_type : option pystr)
          (expand_event_list_from_field : X) (multiline_processor : option Y).

(** The inner loop touches only new objects and yields documents that are
    apart from each other. *)
Lemma for_each_units_frame stream_type stream_name aws_region n rec : forall us w r W,
  closed w ->
  for_each us (handle_decoded_unit account_id stream_type stream_name aws_region n rec) w
  = (r, W) ->
  Ext w W /\ sqs_sent W = sqs_sent w /\ storage_calls W = storage_calls w
  /\ log_records W = log_records w
  /\ exists ys, yielded W = yielded w ++ ys
                /\ separated (heap W) (next_loc w) ys (next_loc W)
                /\ Forall (fun y => kinesis_record_n y = n) ys.
Proof.
  induction us as [|u us IH]; intros w r W Hc Hrun.
  { injection Hrun as <- <-. split; [apply ext_refl, Hc|]. repeat split; try done.
    exists []. rewrite app_nil_r. repeat split; try done. by constructor. }
  cbn [for_each] in Hrun.
  apply bind_inv in Hrun as [([] & w1 & Hbody & Hrest)|(e & Hbody & ->)].
  - destruct (handle_decoded_unit_frame _ _ _ _ _ _ _ _ _ _ (proj1 Hc) Hbody)
      as (E1 & Hs1 & Ht1 & Hl1 & doc & Hy1 & Hdoc).
    assert (closed w1) as Hc1 by by eapply closed_ext.
    destruct (IH _ _ _ Hc1 Hrest) as (E2 & Hs2 & Ht2 & Hl2 & ys & Hy2 & Hsep & Hn).
    split; [by eapply ext_trans|]. repeat split; try congruence.
    exists (item_of u n doc :: ys). split; [|split].
    + rewrite Hy2, Hy1. by rewrite <- app_assoc.
    + apply (separated_cons _ _ (next_loc w1)); [apply E1| |done].
      intros l Hl. cbn in Hl.
      eapply (reachable_segment (next_loc w) w w1); [done|done|].
      eapply reachable_ext; [done|done| |done].
      eapply val_in_mono; [done|lia|lia].
    + by constructor.
  - destruct (handle_decoded_unit_frame _ _ _ _ _ _ _ _ _ _ (proj1 Hc) Hbody)
      as (E1 & Hs1 & Ht1 & Hl1 & Hy1).
    split; [done|]. repeat split; try done.
    exists []. rewrite app_nil_r. repeat split; try done. constructor. apply E1.
Qed.

Lemma handle_one_record_frame n rec w r W :
  closed w ->
  handle_one_record account_id json_content_type expand_event_list_from_field
    multiline_processor n rec w = (r, W) ->
  Ext w W /\ sqs_sent W = sqs_sent w
  /\ storage_calls W = storage_calls w ++ [(data (kinesis rec), 0)]
  /\ exists ys, yielded W = yielded w ++ ys
                /\ separated (heap W) (next_loc w) ys (next_loc W)
                /\ Forall (fun y => kinesis_record_n y = n) ys.
Proof.
  intros Hc Hrun. unfold handle_one_record in Hrun.
  destruct (get_kinesis_stream_name_type_and_region_from_arn (eventSourceARN rec))
    as [[stream_type stream_name] aws_region].
  apply bind_inv in Hrun as [([] & wl & Hlog & Hrun)|(e & [=] & _)].
  apply bind_inv in Hrun as [(events & w1 & Hget & Hrun)|(e & [=] & _)].
  injection Hlog as <-. injection Hget as <- <-.
  set (w1 := mkWorld _ _ _ _ _ _ _) in Hrun.
  assert (closed w1) as Hc1 by by apply (closed_same_store w).
  unfold for_events in Hrun.
  apply bind_inv in Hrun as [([] & w2 & Hloop & Hend)|(e & Hloop & ->)].
  - destruct (for_each_units_frame _ _ _ _ _ _ _ _ _ Hc1 Hloop)
      as (E & Hs & Ht & Hl & ys & Hy & Hsep & Hn).
    assert (W = w2) as ->.
    { destruct (snd (get_by_lines _ 0)); by injection Hend. }
    split; [by apply (inv_base_same _ w1)|]. repeat split; try done. by exists ys.
  - destruct (for_each_units_frame _ _ _ _ _ _ _ _ _ Hc1 Hloop)
      as (E & Hs & Ht & Hl & ys & Hy & Hsep & Hn).
    split; [by apply (inv_base_same _ w1)|]. repeat split; try done. by exists ys.
Qed.

End LoopsFrame.

Lemma sorted_constant {A} (f : A -> nat) n ys :
  Forall (fun y => f y = n) ys -> StronglySorted (fun a b => (f a <= f b)%nat) ys.
Proof.
  induction 1 as [|y ys Hy Hys IH]; constructor; [done|].
  eapply Forall_impl; [exact Hys|]. cbn. intros z Hz. lia.
Qed.

Section TopFrame.
Context {X Y : Type} `{!Imports X Y}.
Variables (account_id : pystr) (json_content_type : option pystr)
          (expand_event_list_from_field : X) (multiline_processor : option Y).

Lemma for_enumerate_frame : forall recs n w r W,
  closed w ->
  for_enumerate n recs
    (handle_one_record account_id json_content_type expand_event_list_from_field
       multiline_processor) w = (r, W) ->
  Ext w W /\ sqs_sent W = sqs_sent w
  /\ (exists k, (k <= length recs)%nat
                /\ storage_calls W
                   = storage_calls w
                     ++ map (fun rec => (data (kinesis rec), 0)) (take k recs)
                /\ (r = Ok tt -> k = length recs))
  /\ exists ys, yielded W = yielded w ++ ys
                /\ separated (heap W) (next_loc w) ys (next_loc W)
                /\ StronglySorted
                     (fun y1 y2 => (kinesis_record_n y1 <= kinesis_record_n y2)%nat) ys
                /\ Forall (fun y => (n <= kinesis_record_n y < n + length recs)%nat) ys.
Proof.
  induction recs as [|rec recs IH]; intros n w r W Hc Hrun.
  { injection Hrun as <- <-. split; [apply ext_refl, Hc|]. split; [done|]. split.
    - exists 0%nat. cbn. by rewrite app_nil_r.
    - exists []. rewrite app_nil_r. repeat split; try constructor. lia. }
  cbn [for_enumerate] in Hrun.
  apply bind_inv in Hrun as [([] & w1 & Hbody & Hrest)|(e & Hbody & ->)].
  - destruct (handle_one_record_frame _ _ _ _ _ _ _ _ _ Hc Hbody)
      as (E1 & Hs1 & Ht1 & ys1 & Hy1 & Hsep1 & Hn1).
    assert (closed w1) as Hc1 by by eapply closed_ext.
    destruct (IH _ _ _ _ Hc1 Hrest)
      as (E2 & Hs2 & (k & Hk & Ht2 & Hall) & ys2 & Hy2 & Hsep2 & Hsort2 & Hn2).
    split; [by eapply ext_trans|]. split; [congruence|]. split.
    + exists (S k). cbn. split; [lia|]. split; [|intros Hr; f_equal; by apply Hall].
      rewrite Ht2, Ht1. by rewrite <- app_assoc.
    + exists (ys1 ++ ys2). split; [|split; [|split]].
      * rewrite Hy2, Hy1. by rewrite <- app_assoc.
      * eapply separated_app; [|done]. by eapply separated_ext.
      * apply StronglySorted_app_2; [|by eapply sorted_constant|done].
        intros y1 y2 H1 H2. rewrite Forall_forall in Hn1, Hn2.
        specialize (Hn1 _ H1). specialize (Hn2 _ H2). lia.
      * apply Forall_app. split.
        -- eapply Forall_impl; [exact Hn1|]. cbn. intros y ->. lia.
        -- eapply Forall_impl; [exact Hn2|]. cbn. intros y Hy. lia.
  - destruct (handle_one_record_frame _ _ _ _ _ _ _ _ _ Hc Hbody)
      as (E1 & Hs1 & Ht1 & ys1 & Hy1 & Hsep1 & Hn1).
    split; [done|]. split; [done|]. split.
    + exists 1%nat. cbn. split; [lia|]. rewrite take_0. by split.
    + exists ys1. split; [done|]. split; [done|]. split; [by eapply sorted_constant|].
      eapply Forall_impl; [exact Hn1|]. cbn. intros y ->. lia.
Qed.

End TopFrame.

Lemma read_document_mono h h' v doc :
  h ⊆ h' -> read_document h v = Some doc -> read_document h' v = Some doc.
Proof.
  intros Hs. unfold read_document, read_str, read_int.
  repeat match goal with
         | |- context [get_path h v ?p] =>
             let E := fresh in
             destruct (get_path h v p) as [[]|] eqn:E; try done;
             rewrite (get_path_mono _ _ _ _ _ Hs E); cbn -[get_path]
         end.
  done.
Qed.

Lemma emits_mono h h' y it : h ⊆ h' -> emits h y it -> emits h' y it.
Proof. intros Hs (Hd & ?). split; [by eapply read_document_mono|done]. Qed.

Section LoopsRun.
Context {X Y : Type} `{!Imports X Y}.
Variables (account_id : pystr) (json_content_type : option pystr)
          (expand_event_list_from_field : X) (multiline_processor : option Y).

Lemma handle_decoded_unit_not_utf8 stream_type stream_name aws_region n rec b s e x w :
  bounded w -> template_ok (heap w) = true -> utf8_decode b = None ->
  exists w',
    handle_decoded_unit account_id stream_type stream_name aws_region n rec
      (EventBytes b, s, e, x) w = (Raise UnicodeDecodeError, w').
Proof.
  intros Hb Hok Hmsg.
  cut (wpe (handle_decoded_unit account_id stream_type stream_name aws_region n rec
              (EventBytes b, s, e, x))
         (fun _ _ => False) (fun err _ => err = UnicodeDecodeError) w).
  { unfold wpe. destruct (handle_decoded_unit _ _ _ _ _ _ _ w) as [[[]|err] w']; [done|].
    intros ->. by exists w'. }
  unfold handle_decoded_unit.
  apply wpe_bind, wpd_deepcopy_default; [done|done|]. intros es f g fl c w1 C1 _.
  eapply wpe_bind, wpd_utcnow; [exact C1|]. intros w2 C2 _.
  eapply wpe_bind, wpd_setitem; [exact C2|known|other_keys|]. intros w3 C3 _.
  apply wpe_bind. unfold wpe, decode_utf8. by rewrite Hmsg.
Qed.

(** One turn of the inner loop does what [unit_emitted] says. *)
Lemma handle_decoded_unit_emitted stream_type stream_name aws_region n rec u w :
  bounded w -> template_ok (heap w) = true ->
  exists r w',
    handle_decoded_unit account_id stream_type stream_name aws_region n rec u w = (r, w')
    /\ match unit_emitted account_id stream_type stream_name aws_region n rec (clock w) u with
       | inl err => r = Raise err
       | inr it =>
           r = Ok tt /\ clock w' = S (clock w)
           /\ exists y, yielded w' = yielded w ++ [y] /\ emits (heap w') y it
       end.
Proof.
  intros Hb Hok. destruct u as [[[log_event s] e] x]. destruct log_event as [b|].
  - cbn [unit_emitted]. destruct (utf8_decode b) as [message|] eqn:Hmsg.
    + destruct (handle_decoded_unit_run account_id stream_type stream_name aws_region n rec
                  b s e x message w Hb Hok Hmsg) as (w' & es & Hrun & Hc & Hy & Hdoc).
      exists (Ok tt), w'. split; [done|]. split; [done|]. split; [done|].
      eexists. split; [exact Hy|]. by split.
    + destruct (handle_decoded_unit_not_utf8 stream_type stream_name aws_region n rec
                  b s e x w Hb Hok Hmsg) as (w' & Hrun).
      by exists (Raise UnicodeDecodeError), w'.
  - by exists (Raise AssertionError), w.
Qed.

Lemma for_each_units_run stream_type stream_name aws_region n rec : forall us w,
  closed w -> template_ok (heap w) = true ->
  let out := units_emitted account_id stream_type stream_name aws_region n rec (clock w) us in
  exists W,
    for_each us (handle_decoded_unit account_id stream_type stream_name aws_region n rec) w
    = (result_of (snd out), W)
    /\ (snd out = None -> clock W = (clock w + length (fst out))%nat)
    /\ exists ys, yielded W = yielded w ++ ys /\ Forall2 (emits (heap W)) ys (fst out).
Proof.
  induction us as [|u us IH]; intros w Hc Hok; cbv zeta.
  { exists w. split; [done|]. split; [cbn; lia|]. exists []. by rewrite app_nil_r. }
  destruct (handle_decoded_unit_emitted stream_type stream_name aws_region n rec u w
              (proj1 Hc) Hok) as (r & w1 & Hbody & Hout).
  cbn [for_each units_emitted].
  destruct (unit_emitted _ _ _ _ _ _ _ u) as [err|it].
  - subst r. exists w1. split; [by erewrite bind_raise|]. split; [done|].
    destruct (handle_decoded_unit_frame _ _ _ _ _ _ _ _ _ _ (proj1 Hc) Hbody)
      as (_ & _ & _ & _ & Hy).
    exists []. by rewrite app_nil_r.
  - destruct Hout as (-> & Hclock & y & Hy & Hemits).
    destruct (handle_decoded_unit_frame _ _ _ _ _ _ _ _ _ _ (proj1 Hc) Hbody)
      as (E1 & _).
    assert (closed w1) as Hc1 by by eapply closed_ext.
    assert (template_ok (heap w1) = true) as Hok1.
    { eapply template_ok_mono; [|done]. apply ext_subseteq; [apply Hc|done]. }
    destruct (IH w1 Hc1 Hok1) as (W & Hrest & Hclock' & ys & Hys & Hall).
    cbv zeta in *. rewrite Hclock in *.
    exists W. split; [by erewrite bind_ok|]. cbn [fst snd]. split.
    + intros Hnone. rewrite (Hclock' Hnone). cbn. lia.
    + exists (y :: ys). split; [rewrite Hys, Hy; by rewrite <- app_assoc|].
      constructor; [|done]. eapply emits_mono; [|done].
      destruct (for_each_units_frame _ _ _ _ _ _ _ _ _ _ Hc1 Hrest) as (E2 & _).
      apply ext_subseteq; [apply Hc1|done].
Qed.

End LoopsRun.

Section RecordsRun.
Context {X Y : Type} `{!Imports X Y}.
Variables (account_id : pystr) (json_content_type : option pystr)
          (expand_event_list_from_field : X) (multiline_processor : option Y).

Lemma handle_one_record_run n rec w :
  closed w -> template_ok (heap w) = true ->
  let out := record_emitted account_id json_content_type expand_event_list_from_field
               multiline_processor n rec (clock w) in
  exists W,
    handle_one_record account_id json_content_type expand_event_list_from_field
      multiline_processor n rec w = (result_of (snd out), W)
    /\ (snd out = None -> clock W = (clock w + length (fst out))%nat)
    /\ exists ys, yielded W = yielded w ++ ys /\ Forall2 (emits (heap W)) ys (fst out).
Proof.
  intros Hc Hok. cbv zeta. unfold handle_one_record, record_emitted, record_units.
  destruct (get_kinesis_stream_name_type_and_region_from_arn (eventSourceARN rec))
    as [[stream_type stream_name] aws_region].
  set (storage := StorageFactory_create _ _ _ _).
  set (w1 := mkWorld (heap w) (next_loc w) (clock w) (sqs_sent w)
               (storage_calls w ++ [(payload storage, 0)])
               (log_records w ++ [{| level := "info"; msg := "kinesis event"; extra := [] |}])
               (yielded w)).
  assert (closed w1) as Hc1 by by apply (closed_same_store w).
  destruct (for_each_units_run account_id stream_type stream_name aws_region n rec
              (fst (get_by_lines storage 0)) w1 Hc1 Hok) as (W & Hloop & Hclock & ys & Hy & Hall).
  cbv zeta in *. change (clock w1) with (clock w) in *. change (yielded w1) with (yielded w) in *.
  set (out := units_emitted _ _ _ _ _ _ _ _) in *.
  exists W. cbn [fst snd]. split; [|split].
  - erewrite bind_ok by reflexivity. erewrite bind_ok by reflexivity. fold w1.
    unfold for_events. destruct (snd out) as [e|].
    + by erewrite bind_raise.
    + erewrite bind_ok by done. by destruct (snd (get_by_lines storage 0)).
  - destruct (snd out); [done|]. intros _. by apply Hclock.
  - by exists ys.
Qed.

Lemma for_enumerate_run : forall recs n w,
  closed w -> template_ok (heap w) = true ->
  let out := records_emitted account_id json_content_type expand_event_list_from_field
               multiline_processor n (clock w) recs in
  exists W,
    for_enumerate n recs
      (handle_one_record account_id json_content_type expand_event_list_from_field
         multiline_processor) w = (result_of (snd out), W)
    /\ storage_calls W
       = storage_calls w
         ++ map (fun rec => (data (kinesis rec), 0))
              (take (records_started account_id json_content_type
                       expand_event_list_from_field multiline_processor n (clock w) recs)
                    recs)
    /\ exists ys, yielded W = yielded w ++ ys /\ Forall2 (emits (heap W)) ys (fst out).
Proof.
  induction recs as [|rec recs IH]; intros n w Hc Hok; cbv zeta.
  { exists w. split; [done|]. split; [cbn; by rewrite app_nil_r|].
    exists []. by rewrite app_nil_r. }
  destruct (handle_one_record_run n rec w Hc Hok) as (w1 & Hbody & Hclock & ys1 & Hy1 & Hall1).
  cbv zeta in *. cbn [for_enumerate records_emitted records_started].
  set (out1 := record_emitted _ _ _ _ _ _ _) in *.
  destruct (handle_one_record_frame _ _ _ _ _ _ _ _ _ Hc Hbody) as (E1 & _ & Ht1 & _).
  destruct (snd out1) as [e|] eqn:Herr.
  - exists w1. split; [by erewrite bind_raise|]. split; [by rewrite Ht1|]. by exists ys1.
  -
    assert (closed w1) as Hc1 by by eapply closed_ext.
    assert (template_ok (heap w1) = true) as Hok1.
    { eapply template_ok_mono; [|done]. apply ext_subseteq; [apply Hc|done]. }
    destruct (IH (S n) w1 Hc1 Hok1) as (W & Hrest & Ht2 & ys2 & Hy2 & Hall2).
    cbv zeta in *. rewrite (Hclock eq_refl) in *.
    destruct (for_enumerate_frame _ _ _ _ _ _ _ _ _ Hc1 Hrest) as (E2 & _).
    exists W. split; [by erewrite bind_ok|]. cbn [fst snd].
    split; [rewrite Ht2, Ht1; cbn; by rewrite <- app_assoc|].
    exists (ys1 ++ ys2). split; [rewrite Hy2, Hy1; by rewrite <- app_assoc|].
    apply Forall2_app; [|done]. eapply Forall2_impl; [exact Hall1|].
    intros y it. apply emits_mono. apply ext_subseteq; [apply Hc1|done].
Qed.

End RecordsRun.

Section ReferenceFacts.
Context {X Y : Type} `{!Imports X Y}.
Variables (account_id : pystr) (json_content_type : option pystr)
          (expand_event_list_from_field : X) (multiline_processor : option Y).

Local Abbreviation record_units' := (record_units json_content_type expand_event_list_from_field
                            multiline_processor).
Local Abbreviation record_emitted' := (record_emitted account_id json_content_type
                              expand_event_list_from_field multiline_processor).
Local Abbreviation records_emitted' := (records_emitted account_id json_content_type
                               expand_event_list_from_field multiline_processor).
Local Abbreviation records_started' := (records_started account_id json_content_type
                               expand_event_list_from_field multiline_processor).
Local Abbreviation batch_units' := (batch_units json_content_type expand_event_list_from_field
                           multiline_processor).
Local Abbreviation record_ok' := (record_ok json_content_type expand_event_list_from_field
                         multiline_processor).

Lemma unit_emitted_yields stream_type stream_name aws_region n rec c u it h y :
  unit_emitted account_id stream_type stream_name aws_region n rec c u = inr it ->
  emits h y it -> yields_unit h y (n, rec, u).
Proof.
  destruct u as [[[log_event s] e] x]. cbn. destruct log_event as [b|]; [|done].
  destruct (utf8_decode b) as [message|] eqn:Hmsg; [|done].
  intros [= <-] (Hdoc & He & Hx & Hn). cbn in *. repeat split; try done.
  eexists _, b. split; [exact Hdoc|]. by repeat split.
Qed.

Lemma units_emitted_prefix stream_type stream_name aws_region n rec h : forall us c ys,
  Forall2 (emits h) ys
    (fst (units_emitted account_id stream_type stream_name aws_region n rec c us)) ->
  exists done rest,
    us = done ++ rest
    /\ Forall2 (yields_unit h) ys (map (fun u => (n, rec, u)) done)
    /\ (snd (units_emitted account_id stream_type stream_name aws_region n rec c us) = None ->
        rest = []).
Proof.
  induction us as [|u us IH]; intros c ys Hall; cbn in *.
  { inversion Hall; subst. exists [], []. by repeat split. }
  destruct (unit_emitted _ _ _ _ _ _ _ u) as [err|it] eqn:Hu; cbn in *.
  - inversion Hall; subst. exists [], (u :: us). by repeat split.
  - inversion Hall as [|y it' ys' items Hy Hrest]; subst.
    destruct (IH _ _ Hrest) as (done & rest & -> & Hdone & Hnone).
    exists (u :: done), rest. split; [done|]. split; [|done].
    cbn. constructor; [|done]. by eapply unit_emitted_yields.
Qed.

Lemma record_emitted_prefix n rec c h ys :
  Forall2 (emits h) ys (fst (record_emitted' n rec c)) ->
  exists done rest,
    fst (record_units' rec) = done ++ rest
    /\ Forall2 (yields_unit h) ys (map (fun u => (n, rec, u)) done)
    /\ (snd (record_emitted' n rec c) = None -> rest = []).
Proof.
  unfold record_emitted.
  destruct (get_kinesis_stream_name_type_and_region_from_arn (eventSourceARN rec))
    as [[stream_type stream_name] aws_region]. cbn [fst snd].
  intros Hall. destruct (units_emitted_prefix _ _ _ _ _ _ _ _ _ Hall)
    as (done & rest & Hus & Hdone & Hnone).
  exists done, rest. split; [done|]. split; [done|].
  destruct (snd (units_emitted _ _ _ _ _ _ _ _)); [done|]. intros _. by apply Hnone.
Qed.

Lemma records_emitted_prefix h : forall recs n c ys,
  Forall2 (emits h) ys (fst (records_emitted' n c recs)) ->
  exists done rest,
    batch_units' n recs = done ++ rest
    /\ Forall2 (yields_unit h) ys done
    /\ (snd (records_emitted' n c recs) = None -> rest = []).
Proof.
  induction recs as [|rec recs IH]; intros n c ys Hall; cbn in *.
  { inversion Hall; subst. exists [], []. by repeat split. }
  destruct (snd (record_emitted' n rec c)) as [err|] eqn:Herr; cbn [fst snd] in *.
  - destruct (record_emitted_prefix _ _ _ _ _ Hall) as (done & rest & Hus & Hdone & _).
    exists (map (fun u => (n, rec, u)) done),
           (map (fun u => (n, rec, u)) rest ++ batch_units' (S n) recs).
    split; [|by split]. by rewrite Hus, map_app, <- app_assoc.
  - apply Forall2_app_inv_r in Hall as (ys1 & ys2 & H1 & H2 & ->).
    destruct (record_emitted_prefix _ _ _ _ _ H1) as (done1 & rest1 & Hus & Hdone1 & Hnone1).
    rewrite (Hnone1 Herr), app_nil_r in Hus. subst done1.
    destruct (IH _ _ _ H2) as (done2 & rest2 & Hb & Hdone2 & Hnone2).
    exists (map (fun u => (n, rec, u)) (fst (record_units' rec)) ++ done2), rest2.
    split; [by rewrite Hb, <- app_assoc|]. split; [by apply Forall2_app|done].
Qed.

Lemma units_emitted_ok stream_type stream_name aws_region n rec : forall us c,
  forallb unit_ok us = true ->
  snd (units_emitted account_id stream_type stream_name aws_region n rec c us) = None.
Proof.
  induction us as [|u us IH]; intros c Hok; [done|]. cbn in *.
  apply andb_prop in Hok as [Hu Hus]. destruct u as [[[log_event s] e] x].
  unfold unit_ok in Hu. cbn in *. destruct log_event as [b|]; [|done].
  destruct (utf8_decode b); [|done]. cbn. by apply IH.
Qed.

Lemma record_emitted_ok n rec c : record_ok' rec = true -> snd (record_emitted' n rec c) = None.
Proof.
  unfold record_ok, record_emitted. intros Hok. apply andb_prop in Hok as [Hus Hend].
  destruct (get_kinesis_stream_name_type_and_region_from_arn (eventSourceARN rec))
    as [[stream_type stream_name] aws_region]. cbn [fst snd].
  rewrite units_emitted_ok by done. by destruct (snd (record_units' rec)).
Qed.

Lemma record_emitted_raises n rec c e :
  forallb unit_ok (fst (record_units' rec)) = true -> snd (record_units' rec) = Some e ->
  snd (record_emitted' n rec c) = Some e.
Proof.
  unfold record_emitted. intros Hus Hend.
  destruct (get_kinesis_stream_name_type_and_region_from_arn (eventSourceARN rec))
    as [[stream_type stream_name] aws_region]. cbn [fst snd].
  by rewrite units_emitted_ok.
Qed.

Lemma records_emitted_ok : forall recs n c,
  forallb record_ok' recs = true ->
  snd (records_emitted' n c recs) = None /\ records_started' n c recs = length recs.
Proof.
  induction recs as [|rec recs IH]; intros n c Hok; [done|]. cbn in *.
  apply andb_prop in Hok as [Hrec Hrecs]. rewrite (record_emitted_ok _ _ _ Hrec). cbn.
  destruct (IH (S n) (c + length (fst (record_emitted' n rec c)))%nat Hrecs) as [-> ->]. done.
Qed.

Lemma records_emitted_raises rec post e h : forall pre n c,
  forallb record_ok' pre = true ->
  forallb unit_ok (fst (record_units' rec)) = true -> snd (record_units' rec) = Some e ->
  snd (records_emitted' n c (pre ++ rec :: post)) = Some e
  /\ records_started' n c (pre ++ rec :: post) = S (length pre)
  /\ forall ys,
       Forall2 (emits h) ys (fst (records_emitted' n c (pre ++ rec :: post))) ->
       Forall2 (yields_unit h) ys (batch_units' n (pre ++ [rec])).
Proof.
  induction pre as [|r0 pre IH]; intros n c Hpre Hus Hend; cbn in *.
  - rewrite (record_emitted_raises _ _ _ _ Hus Hend). cbn. split; [done|]. split; [done|].
    intros ys Hall.
    destruct (record_emitted_prefix _ _ _ _ _ Hall) as (done & rest & Hunits & Hdone & _).
    rewrite app_nil_r.
    assert (rest = []) as ->; [|by rewrite Hunits, app_nil_r].
    unfold record_emitted in Hall.
    destruct (get_kinesis_stream_name_type_and_region_from_arn (eventSourceARN rec))
      as [[stream_type stream_name] aws_region]. cbn [fst snd] in Hall.
    destruct (units_emitted_prefix _ _ _ _ _ _ _ _ _ Hall) as (done' & rest' & Hu' & Hd' & Hn').
    rewrite (Hn' (units_emitted_ok _ _ _ _ _ _ _ Hus)), app_nil_r in Hu'. subst done'.
    apply Forall2_length in Hdone, Hd'. rewrite length_map in Hdone, Hd'.
    rewrite Hunits, length_app in Hd'. destruct rest; [done|]. cbn in Hd'. lia.
  - apply andb_prop in Hpre as [Hr0 Hpre]. rewrite (record_emitted_ok _ _ _ Hr0). cbn.
    destruct (IH (S n) (c + length (fst (record_emitted' n r0 c)))%nat Hpre Hus Hend)
      as (-> & -> & Hyields).
    split; [done|]. split; [done|]. intros ys Hall.
    apply Forall2_app_inv_r in Hall as (ys1 & ys2 & H1 & H2 & ->).
    apply Forall2_app; [|by apply Hyields].
    destruct (record_emitted_prefix _ _ _ _ _ H1) as (done & rest & Hunits & Hdone & Hnone).
    rewrite (Hnone (record_emitted_ok _ _ _ Hr0)), app_nil_r in Hunits. by subst done.
Qed.

Lemma elem_of_batch_units nru : forall recs n,
  nru ∈ batch_units' n recs ->
  exists i, fst (fst nru) = (n + i)%nat /\ recs !! i = Some (snd (fst nru))
            /\ snd nru ∈ fst (record_units' (snd (fst nru))).
Proof.
  induction recs as [|rec recs IH]; intros n Hin; cbn in Hin; [by inversion Hin|].
  apply elem_of_app in Hin as [Hin|Hin].
  - apply list_elem_of_fmap in Hin as (u & -> & Hu). exists 0%nat. cbn.
    split; [lia|]. by split.
  - destruct (IH _ Hin) as (i & Hn & Hi & Hu). exists (S i). cbn. split; [lia|]. by split.
Qed.

End ReferenceFacts.

(** ** The record consumer *)

Lemma closedb_closed w : closedb w = true -> closed w.
Proof.
  unfold closedb. rewrite forallb_forall. intros Hall. split.
  - intros l d Hl. apply elem_of_map_to_list, list_elem_of_In in Hl.
    specialize (Hall _ Hl). cbn in Hall. apply andb_prop in Hall as [Hlt _].
    by apply Nat.ltb_lt.
  - intros l d k v Hl Hk. apply elem_of_map_to_list, list_elem_of_In in Hl.
    specialize (Hall _ Hl). cbn in Hall. apply andb_prop in Hall as [_ Hd].
    rewrite forallb_forall in Hd. apply elem_of_map_to_list, list_elem_of_In in Hk.
    specialize (Hd _ Hk). cbn in Hd. destruct v; try done. cbn.
    apply Nat.ltb_lt in Hd. lia.
Qed.

Lemma separated_range h a ys b y l :
  separated h a ys b -> y ∈ ys -> reachable h (es_event y) l -> (a <= l < b)%nat.
Proof.
  induction 1 as [a b Hle|a m y0 ys b Hle Hy Hrest IH]; intros Hin Hl; [by inversion Hin|].
  pose proof (separated_le _ _ _ _ Hrest) as Hmb.
  apply elem_of_cons in Hin as [->|Hin].
  - specialize (Hy _ Hl). lia.
  - specialize (IH Hin Hl). lia.
Qed.

Lemma separated_apart h a ys b : forall i j yi yj l,
  separated h a ys b -> (i < j)%nat -> ys !! i = Some yi -> ys !! j = Some yj ->
  reachable h (es_event yi) l -> reachable h (es_event yj) l -> False.
Proof.
  intros i j yi yj l Hsep. revert i j.
  induction Hsep as [a b Hle|a m y0 ys b Hle Hy Hrest IH]; intros i j Hij Hi Hj Hli Hlj;
    [done|].
  destruct j as [|j]; [lia|]. cbn in Hj. destruct i as [|i].
  - injection Hi as <-. specialize (Hy _ Hli).
    assert (yj ∈ ys) as Hin by (apply list_elem_of_lookup; by exists j).
    pose proof (separated_range _ _ _ _ _ _ Hrest Hin Hlj). lia.
  - cbn in Hi. eapply (IH i j); [lia|done..].
Qed.

Section Consumer.
Context {ExpandEventListFromField ProtocolMultiline : Type}.
Context `{!Imports ExpandEventListFromField ProtocolMultiline}.

Implicit Types (event : Event) (input_id : pystr) (w : World)
  (expand_event_list_from_field : ExpandEventListFromField)
  (json_content_type : option pystr) (multiline_processor : option ProtocolMultiline).

(** The frame of a whole call, whatever the default event is. *)
Lemma handle_kinesis_record_frame event input_id expand_event_list_from_field
    json_content_type multiline_processor w r W :
  closed w ->
  _handle_kinesis_record event input_id expand_event_list_from_field json_content_type
    multiline_processor w = (r, W) ->
  Ext w W /\ sqs_sent W = sqs_sent w
  /\ (exists k, (k <= length (Records event))%nat
                /\ storage_calls W
                   = storage_calls w
                     ++ map (fun rec => (data (kinesis rec), 0)) (take k (Records event))
                /\ (r = Ok tt -> k = length (Records event)))
  /\ exists ys, yielded W = yielded w ++ ys
                /\ separated (heap W) (next_loc w) ys (next_loc W)
                /\ StronglySorted
                     (fun y1 y2 => (kinesis_record_n y1 <= kinesis_record_n y2)%nat) ys
                /\ Forall (fun y => (kinesis_record_n y < length (Records event))%nat) ys.
Proof.
  intros Hc Hrun. unfold _handle_kinesis_record in Hrun.
  destruct (for_enumerate_frame _ _ _ _ _ _ _ _ _ Hc Hrun)
    as (E & Hs & Hk & ys & Hy & Hsep & Hsort & Hn).
  split; [done|]. split; [done|]. split; [done|]. exists ys. repeat split; try done.
  eapply Forall_impl; [exact Hn|]. cbn. intros y. lia.
Qed.

(** With a default event that has the dictionaries the loop indexes, a
    call ends as [records_emitted] says, has read the records it got to
    from offset 0, and has yielded the documents of [records_emitted]. *)
Lemma handle_kinesis_record_run event input_id expand_event_list_from_field
    json_content_type multiline_processor w r W :
  closed w -> template_ok (heap w) = true ->
  _handle_kinesis_record event input_id expand_event_list_from_field json_content_type
    multiline_processor w = (r, W) ->
  let account_id := get_account_id_from_arn input_id in
  r = result_of (snd (records_emitted account_id json_content_type
                        expand_event_list_from_field multiline_processor 0 (clock w)
                        (Records event)))
  /\ storage_calls W
     = storage_calls w
       ++ map (fun rec => (data (kinesis rec), 0))
            (take (records_started account_id json_content_type
                     expand_event_list_from_field multiline_processor 0 (clock w)
                     (Records event))
                  (Records event))
  /\ exists ys, yielded W = yielded w ++ ys
                /\ Forall2 (emits (heap W)) ys
                     (fst (records_emitted account_id json_content_type
                             expand_event_list_from_field multiline_processor 0 (clock w)
                             (Records event))).
Proof.
  intros Hc Hok Hrun. cbv zeta.
  destruct (for_enumerate_run (get_account_id_from_arn input_id) json_content_type
              expand_event_list_from_field multiline_processor (Records event) 0 w Hc Hok)
    as (W' & Hrun' & Hcalls & ys & Hy & Hall).
  unfold _handle_kinesis_record in Hrun. rewrite Hrun' in Hrun. injection Hrun as <- <-.
  split; [done|]. split; [done|]. by exists ys.
Qed.

(** The items yielded by a call are, one for one and in order, the
    decoded units of the batch from its first on, all of them if the call
    ends normally; and it does end normally on a batch whose units are
    UTF-8 bytes and whose decoder raises nothing. *)
Lemma handle_kinesis_record_yields event input_id expand_event_list_from_field
    json_content_type multiline_processor w r W :
  closed w -> template_ok (heap w) = true ->
  _handle_kinesis_record event input_id expand_event_list_from_field json_content_type
    multiline_processor w = (r, W) ->
  (forallb (record_ok json_content_type expand_event_list_from_field multiline_processor)
     (Records event) = true -> r = Ok tt)
  /\ exists ys done rest,
      yielded W = yielded w ++ ys
      /\ batch_units json_content_type expand_event_list_from_field multiline_processor
           0 (Records event) = done ++ rest
      /\ Forall2 (yields_unit (heap W)) ys done
      /\ (r = Ok tt -> rest = []).
Proof.
  intros Hc Hok Hrun.
  destruct (handle_kinesis_record_run _ _ _ _ _ _ _ _ Hc Hok Hrun) as (Hr & _ & ys & Hy & Hall).
  cbv zeta in *. split.
  - intros Hall_ok. rewrite Hr.
    by destruct (records_emitted_ok (get_account_id_from_arn input_id) json_content_type
                   expand_event_list_from_field multiline_processor (Records event) 0
                   (clock w) Hall_ok) as [-> _].
  - destruct (records_emitted_prefix _ _ _ _ _ _ _ _ _ Hall) as (done & rest & Hb & Hd & Hnone).
    exists ys, done, rest. repeat split; try done.
    intros ->. apply Hnone. by destruct (snd (records_emitted _ _ _ _ _ _ _)).
Qed.

End Consumer.

Section ConsumerClaims.
Context {ExpandEventListFromField ProtocolMultiline : Type}.
Context `{!Imports ExpandEventListFromField ProtocolMultiline}.

Implicit Types (event : Event) (input_id : pystr) (w : World)
  (expand_event_list_from_field : ExpandEventListFromField)
  (json_content_type : option pystr) (multiline_processor : option ProtocolMultiline).


(** C2, as the code has it: an exception raised by the decoder of record
    [i] is not caught.  Once the records before it and the units it
    produced have been yielded, the call ends with that exception; the
    records after it are not read and no document is yielded for them. *)
Theorem decoder_failure_ends_the_call event input_id expand_event_list_from_field
    json_content_type multiline_processor w pre rec post e :
  closed w -> template_ok (heap w) = true ->
  Records event = pre ++ rec :: post ->
  forallb (record_ok json_content_type expand_event_list_from_field multiline_processor)
          pre = true ->
  forallb unit_ok (fst (record_units json_content_type expand_event_list_from_field
                          multiline_processor rec)) = true ->
  snd (record_units json_content_type expand_event_list_from_field
         multiline_processor rec) = Some e ->
  let run := _handle_kinesis_record event input_id expand_event_list_from_field
               json_content_type multiline_processor w in
  fst run = Raise e
  /\ storage_calls (snd run)
     = storage_calls w ++ map (fun rec => (data (kinesis rec), 0)) (pre ++ [rec])
  /\ exists ys,
      yielded (snd run) = yielded w ++ ys
      /\ Forall2 (yields_unit (heap (snd run))) ys
           (batch_units json_content_type expand_event_list_from_field multiline_processor
              0 (pre ++ [rec]))
      /\ Forall (fun y => (kinesis_record_n y <= length pre)%nat) ys.
Proof.
  intros Hc Hok Hrecs Hpre Hunits Hend run. destruct run as [r W] eqn:Hrun. cbn [fst snd].
  destruct (handle_kinesis_record_run _ _ _ _ _ _ _ _ Hc Hok Hrun) as (Hr & Hcalls & ys & Hy & Hall).
  cbv zeta in *. rewrite Hrecs in *.
  destruct (records_emitted_raises (get_account_id_from_arn input_id) json_content_type
              expand_event_list_from_field multiline_processor rec post e (heap W)
              pre 0 (clock w) Hpre Hunits Hend) as (Herr & Hstarted & Hyields).
  rewrite Herr in Hr. rewrite Hstarted in Hcalls.
  split; [done|]. split.
  { rewrite Hcalls. do 2 f_equal.
    replace (S (length pre)) with (length (pre ++ [rec])) by (rewrite length_app; cbn; lia).
    replace (pre ++ rec :: post) with ((pre ++ [rec]) ++ post) by (by rewrite <- app_assoc).
    by rewrite take_app_length. }
  exists ys. split; [done|]. specialize (Hyields ys Hall). split; [done|].
  apply Forall_forall. intros y Hin. apply list_elem_of_lookup in Hin as [i Hi].
  destruct (Forall2_lookup_l _ _ _ _ _ Hyields Hi) as ([[n rec'] u] & Hu & Hyu).
  assert (((n, rec'), u) ∈ batch_units json_content_type expand_event_list_from_field
            multiline_processor 0 (pre ++ [rec])) as Hin
    by (apply list_elem_of_lookup; by exists i).
  apply elem_of_batch_units in Hin as (j & Hn & Hj & _). cbn in Hn, Hj.
  apply lookup_lt_Some in Hj. rewrite length_app in Hj. cbn in Hj.
  destruct u as [[[le s] en] x]. destruct Hyu as (-> & _). lia.
Qed.

(** C6: the records are read in batch order, none skipped; the items
    yielded are, one for one and in order, the decoded units of the batch
    in emission order (record by record, and within a record as the
    decoder produced them), from the first on and all of them when the
    call ends normally, which it does on a batch whose units are UTF-8
    bytes and whose decoder raises nothing.  So the record index never
    decreases along the yielded items. *)
Theorem documents_follow_batch_order event input_id expand_event_list_from_field
    json_content_type multiline_processor w :
  closed w -> template_ok (heap w) = true ->
  let run := _handle_kinesis_record event input_id expand_event_list_from_field
               json_content_type multiline_processor w in
  (forallb (record_ok json_content_type expand_event_list_from_field multiline_processor)
     (Records event) = true -> fst run = Ok tt)
  /\ (exists k,
       (k <= length (Records event))%nat
       /\ storage_calls (snd run)
          = storage_calls w
            ++ map (fun rec => (data (kinesis rec), 0)) (take k (Records event))
       /\ (fst run = Ok tt -> k = length (Records event)))
  /\ exists ys done rest,
      yielded (snd run) = yielded w ++ ys
      /\ batch_units json_content_type expand_event_list_from_field multiline_processor
           0 (Records event) = done ++ rest
      /\ Forall2 (yields_unit (heap (snd run))) ys done
      /\ (fst run = Ok tt -> rest = [])
      /\ StronglySorted
           (fun y1 y2 => (kinesis_record_n y1 <= kinesis_record_n y2)%nat) ys.
Proof.
  intros Hc Hok run. destruct run as [r W] eqn:Hrun. cbn [fst snd].
  destruct (handle_kinesis_record_yields _ _ _ _ _ _ _ _ Hc Hok Hrun)
    as (Hall_ok & ys & done & rest & Hy & Hb & Hd & Hrest).
  destruct (handle_kinesis_record_frame _ _ _ _ _ _ _ _ Hc Hrun)
    as (_ & _ & Hk & ys' & Hy' & _ & Hsort & _).
  assert (ys' = ys) as -> by (rewrite Hy in Hy'; by apply app_inv_head in Hy').
  split; [done|]. split; [done|]. exists ys, done, rest. by repeat split.
Qed.

(** C10: every yielded item is the item of a decoded unit of a record of
    the batch: its document has the unit's starting offset under
    [fields.log.offset], and the tuple carries the unit's ending offset,
    its expanded offset and the index of the record in the batch, counted
    from 0.  The items stand for the units of the batch in emission
    order, all of them when the call ends normally. *)
Theorem document_offset_is_start_tuple_has_end event input_id expand_event_list_from_field
    json_content_type multiline_processor w :
  closed w -> template_ok (heap w) = true ->
  let run := _handle_kinesis_record event input_id expand_event_list_from_field
               json_content_type multiline_processor w in
  exists ys done rest,
    yielded (snd run) = yielded w ++ ys
    /\ batch_units json_content_type expand_event_list_from_field multiline_processor
         0 (Records event) = done ++ rest
    /\ (fst run = Ok tt -> rest = [])
    /\ Forall2
         (fun y nru =>
            let '(n, rec, (log_event, starting, ending, expanded)) := nru in
            Records event !! n = Some rec
            /\ (log_event, starting, ending, expanded)
               ∈ fst (record_units json_content_type expand_event_list_from_field
                        multiline_processor rec)
            /\ (exists doc, read_document (heap (snd run)) (es_event y) = Some doc
                            /\ doc_offset doc = starting)
            /\ ending_offset y = ending
            /\ event_expanded_offset y = expanded
            /\ kinesis_record_n y = n)
         ys done.
Proof.
  intros Hc Hok run. destruct run as [r W] eqn:Hrun. cbn [fst snd].
  destruct (handle_kinesis_record_yields _ _ _ _ _ _ _ _ Hc Hok Hrun)
    as (_ & ys & done & rest & Hy & Hb & Hd & Hrest).
  exists ys, done, rest. repeat split; try done.
  apply Forall2_same_length_lookup_2; [by eapply Forall2_length|].
  intros i y [[n rec] [[[le s] en] x]] Hi Hnru.
  pose proof (Forall2_lookup_lr _ _ _ _ _ _ Hd Hi Hnru) as (Hn & He & Hx & doc & b & Hdoc & _ & _ & Hs & _).
  assert (((n, rec), (le, s, en, x))
            ∈ batch_units json_content_type expand_event_list_from_field
                multiline_processor 0 (Records event)) as Hin.
  { rewrite Hb. apply elem_of_app. left. apply list_elem_of_lookup. by exists i. }
  apply elem_of_batch_units in Hin as (j & Hj & Hrec & Hu). cbn in Hj, Hrec, Hu. subst j.
  repeat split; try done. by exists doc.
Qed.

(** C7: a call leaves every object that was in the store as it was, the
    default event and all it refers to among them.  The documents it
    yields are made of new objects only: no object of a document is an
    object of the default event or of another yielded document; so
    whatever is written to an object of one document, the objects of the
    other documents and of the default event keep their content. *)
Theorem documents_are_fresh_copies event input_id expand_event_list_from_field
    json_content_type multiline_processor w :
  closed w -> val_in 0 (next_loc w) _default_event ->
  let run := _handle_kinesis_record event input_id expand_event_list_from_field
               json_content_type multiline_processor w in
  (forall l, (l < next_loc w)%nat -> heap (snd run) !! l = heap w !! l)
  /\ (forall l, reachable (heap (snd run)) _default_event l ->
        reachable (heap w) _default_event l /\ heap (snd run) !! l = heap w !! l)
  /\ exists ys,
      yielded (snd run) = yielded w ++ ys
      /\ (forall i y l, ys !! i = Some y -> reachable (heap (snd run)) (es_event y) l ->
            (next_loc w <= l)%nat /\ ~ reachable (heap (snd run)) _default_event l)
      /\ (forall i j yi yj l, i <> j -> ys !! i = Some yi -> ys !! j = Some yj ->
            reachable (heap (snd run)) (es_event yi) l ->
            ~ reachable (heap (snd run)) (es_event yj) l)
      /\ (forall i j yi yj l d l', i <> j -> ys !! i = Some yi -> ys !! j = Some yj ->
            reachable (heap (snd run)) (es_event yi) l ->
            reachable (heap (snd run)) (es_event yj) l' ->
            <[l := d]> (heap (snd run)) !! l' = heap (snd run) !! l')
      /\ (forall i yi l d l', ys !! i = Some yi ->
            reachable (heap (snd run)) (es_event yi) l ->
            reachable (heap (snd run)) _default_event l' ->
            <[l := d]> (heap (snd run)) !! l' = heap (snd run) !! l').
Proof.
  intros Hc Htemplate run. destruct run as [r W] eqn:Hrun. cbn [fst snd].
  destruct (handle_kinesis_record_frame _ _ _ _ _ _ _ _ Hc Hrun)
    as (E & _ & _ & ys & Hy & Hsep & _ & _).
  assert (forall l, reachable (heap W) _default_event l ->
            reachable (heap w) _default_event l /\ (l < next_loc w)%nat) as Hold.
  { intros l Hl. pose proof (reachable_ext _ _ _ _ Hc E Htemplate Hl) as Hl'.
    split; [done|].
    assert (Inv 0%nat w w) as H0.
    { split; [lia|apply Hc|done|]. intros ? ? ? ? _. apply Hc. }
    pose proof (reachable_segment 0%nat w w _ _ H0 Htemplate Hl'). lia. }
  assert (forall i y l, ys !! i = Some y -> reachable (heap W) (es_event y) l ->
            (next_loc w <= l)%nat) as Hnew.
  { intros i y l Hi Hl.
    assert (y ∈ ys) as Hin by (apply list_elem_of_lookup; by exists i).
    pose proof (separated_range _ _ _ _ _ _ Hsep Hin Hl). lia. }
  assert (forall i j yi yj l, i <> j -> ys !! i = Some yi -> ys !! j = Some yj ->
            reachable (heap W) (es_event yi) l -> ~ reachable (heap W) (es_event yj) l)
    as Hapart.
  { intros i j yi yj l Hij Hi Hj Hli Hlj.
    destruct (decide (i < j)%nat).
    - by eapply (separated_apart _ _ _ _ i j yi yj l Hsep).
    - eapply (separated_apart _ _ _ _ j i yj yi l Hsep); [lia|done..]. }
  split; [intros l Hl; by apply (inv_old _ _ _ E)|].
  split.
  { intros l Hl. destruct (Hold l Hl) as [Hl' Hlt]. split; [done|]. by apply (inv_old _ _ _ E). }
  exists ys. split; [done|]. split; [|split; [done|split]].
  - intros i y l Hi Hl. split; [by eapply Hnew|].
    intros Ht. destruct (Hold l Ht) as [_ Hlt]. specialize (Hnew i y l Hi Hl). lia.
  - intros i j yi yj l d l' Hij Hi Hj Hl Hl'. apply lookup_insert_ne.
    intros ->. by eapply (Hapart i j yi yj l').
  - intros i yi l d l' Hi Hl Hl'. apply lookup_insert_ne.
    intros ->. destruct (Hold l' Hl') as [_ Hlt]. specialize (Hnew i yi l' Hi Hl). lia.
Qed.

End ConsumerClaims.

(** ** The consumer on concrete batches *)



Lemma decoder_failure_ends_the_call_witness :
  closed initial_world /\ template_ok (heap initial_world) = true
  /\ Records interrupted = [two_lines] ++ broken :: [two_lines]
  /\ forallb (record_ok None tt None) [two_lines] = true
  /\ forallb unit_ok (fst (decoded broken)) = true
  /\ snd (decoded broken) = Some (External "ValueError")
  /\ fst (consume interrupted) = Raise (External "ValueError")
  /\ storage_calls (snd (consume interrupted))
     = storage_calls initial_world
       ++ map (fun rec => (data (kinesis rec), 0)) ([two_lines] ++ [broken])
  /\ exists ys,
      yielded (snd (consume interrupted)) = yielded initial_world ++ ys
      /\ Forall2 (yields_unit (heap (snd (consume interrupted)))) ys
           (batch_units None tt None 0 ([two_lines] ++ [broken]))
      /\ Forall (fun y => (kinesis_record_n y <= length [two_lines])%nat) ys.
Proof.
  split; [apply closedb_closed; reflexivity|]. do 5 (split; [reflexivity|]).
  apply (decoder_failure_ends_the_call interrupted stream_arn tt None None initial_world
           [two_lines] broken [two_lines] (External "ValueError")).
  - apply closedb_closed. reflexivity.
  - reflexivity.
  - reflexivity.
  - reflexivity.
  - reflexivity.
  - reflexivity.
Defined.

(** C2, the sentence of the specification on a batch whose record 0 the
    decoder gives up on: the call ends with the decoder's exception,
    record 1 is never read and none of its units is yielded. *)
Lemma decoder_failure_blocks_later_records_counterexample :
  let run := consume {| Records := [broken; two_lines] |} in
  snd (decoded broken) = Some (External "ValueError")
  /\ fst (decoded two_lines) <> []
  /\ fst run = Raise (External "ValueError")
  /\ storage_calls (snd run) = [(data (kinesis broken), 0)]
  /\ Forall (fun y => kinesis_record_n y = 0%nat) (yielded (snd run)).
Proof.
  cbv zeta. split; [by vm_compute|]. split; [by vm_compute|]. split; [by vm_compute|].
  split; [by vm_compute|].
  apply Forall_forall. intros y Hin. apply list_elem_of_In in Hin.
  vm_compute in Hin. destruct Hin as [<-|[]]. reflexivity.
Qed.

Lemma documents_follow_batch_order_witness :
  closed initial_world /\ template_ok (heap initial_world) = true
  /\ (forallb (record_ok None tt None) (Records two_records) = true ->
      fst (consume two_records) = Ok tt)
  /\ (exists k,
       (k <= length (Records two_records))%nat
       /\ storage_calls (snd (consume two_records))
          = storage_calls initial_world
            ++ map (fun rec => (data (kinesis rec), 0)) (take k (Records two_records))
       /\ (fst (consume two_records) = Ok tt -> k = length (Records two_records)))
  /\ exists ys done rest,
      yielded (snd (consume two_records)) = yielded initial_world ++ ys
      /\ batch_units None tt None 0 (Records two_records) = done ++ rest
      /\ Forall2 (yields_unit (heap (snd (consume two_records)))) ys done
      /\ (fst (consume two_records) = Ok tt -> rest = [])
      /\ StronglySorted
           (fun y1 y2 => (kinesis_record_n y1 <= kinesis_record_n y2)%nat) ys.
Proof.
  split; [apply closedb_closed; reflexivity|]. split; [reflexivity|].
  apply (documents_follow_batch_order two_records stream_arn tt None None initial_world).
  - apply closedb_closed. reflexivity.
  - reflexivity.
Defined.

Lemma document_offset_is_start_tuple_has_end_witness :
  closed initial_world /\ template_ok (heap initial_world) = true
  /\ exists ys done rest,
      yielded (snd (consume two_records)) = yielded initial_world ++ ys
      /\ batch_units None tt None 0 (Records two_records) = done ++ rest
      /\ (fst (consume two_records) = Ok tt -> rest = [])
      /\ Forall2
           (fun y nru =>
              let '(n, rec, (log_event, starting, ending, expanded)) := nru in
              Records two_records !! n = Some rec
              /\ (log_event, starting, ending, expanded) ∈ fst (decoded rec)
              /\ (exists doc,
                   read_document (heap (snd (consume two_records))) (es_event y) = Some doc
                   /\ doc_offset doc = starting)
              /\ ending_offset y = ending
              /\ event_expanded_offset y = expanded
              /\ kinesis_record_n y = n)
           ys done.
Proof.
  split; [apply closedb_closed; reflexivity|]. split; [reflexivity|].
  apply (document_offset_is_start_tuple_has_end two_records stream_arn tt None None
           initial_world).
  - apply closedb_closed. reflexivity.
  - reflexivity.
Defined.

Lemma documents_are_fresh_copies_witness :
  closed initial_world /\ val_in 0 (next_loc initial_world) _default_event
  /\ (forall l, (l < next_loc initial_world)%nat ->
        heap (snd (consume two_records)) !! l = heap initial_world !! l)
  /\ (forall l, reachable (heap (snd (consume two_records))) _default_event l ->
        reachable (heap initial_world) _default_event l
        /\ heap (snd (consume two_records)) !! l = heap initial_world !! l)
  /\ exists ys,
      yielded (snd (consume two_records)) = yielded initial_world ++ ys
      /\ (forall i y l, ys !! i = Some y ->
            reachable (heap (snd (consume two_records))) (es_event y) l ->
            (next_loc initial_world <= l)%nat
            /\ ~ reachable (heap (snd (consume two_records))) _default_event l)
      /\ (forall i j yi yj l, i <> j -> ys !! i = Some yi -> ys !! j = Some yj ->
            reachable (heap (snd (consume two_records))) (es_event yi) l ->
            ~ reachable (heap (snd (consume two_records))) (es_event yj) l)
      /\ (forall i j yi yj l d l', i <> j -> ys !! i = Some yi -> ys !! j = Some yj ->
            reachable (heap (snd (consume two_records))) (es_event yi) l ->
            reachable (heap (snd (consume two_records))) (es_event yj) l' ->
            <[l := d]> (heap (snd (consume two_records))) !! l'
            = heap (snd (consume two_records)) !! l')
      /\ (forall i yi l d l', ys !! i = Some yi ->
            reachable (heap (snd (consume two_records))) (es_event yi) l ->
            reachable (heap (snd (consume two_records))) _default_event l' ->
            <[l := d]> (heap (snd (consume two_records))) !! l'
            = heap (snd (consume two_records)) !! l').
Proof.
  split; [apply closedb_closed; reflexivity|]. split; [cbn; lia|].
  apply (documents_are_fresh_copies two_records stream_arn tt None None initial_world).
  - apply closedb_closed. reflexivity.
  - cbn. lia.
Defined.
